(** * biwy: the anomaly-detection core of [biwy.py]

    The development embeds the numerical core of the monitor
    ([detect_anomaly], the rolling window kept by [main], the history
    loader's truncation, the per-cycle ratio and the control skeleton
    of the main loop) and proves the properties stated for it. It then
    embeds what surrounds the core in an iteration of [main] (the
    decoding of the fetched answer, the file of known ids, the
    simulated visits) and proves how these behave and compose.

    Modelling decisions, all visible in the definitions below:
    - a Python [float] is a real number ([R]); rounding, infinities and
      NaN are outside the model. A second embedding of the scoring
      path, [detect_anomaly_fp], takes floats that may be NaN and
      agrees with the first on data without NaN;
    - a Python [int] is an integer ([Z]); [len] returns a [nat];
    - Python lists and numpy arrays are mutable objects: they live in a
      heap ([gmap loc (list R)]) and are passed by reference;
    - exceptions are values of [exn]; a computation is a function from
      the world to an outcome and a new world;
    - [STL] (statsmodels) is external to the repository: it is a
      parameter of the development, free to raise, to return any
      residual sequence and to write to the array it is handed. Every
      call is recorded in the world;
    - what the network, the file system and the random generator do
      is an input of the function that uses it: the outcome of the
      request, the file as found, the draws;
    - text is a string of characters below 256; [str] of an integer
      id is its decimal text. *)

From Stdlib Require Import Reals Lra Lia ZArith Ascii String.
From stdpp Require Import base option list gmap strings pretty.

Set Default Proof Using "Type".

(** ** Exceptions and outcomes *)

(** Instances of Python's [Exception], the class the handlers of
    [biwy.py] catch. *)
Inductive exn : Type :=
  | IndexError
  | ZeroDivisionError
  | ValueError
  | LibraryError (name : string).

Inductive result (A : Type) : Type :=
  | Ok (a : A)
  | Raise (e : exn).
Arguments Ok {A} a.
Arguments Raise {A} e.

(** ** The world: heap of list objects, external calls, error log *)

Definition loc := positive.

Record world : Type := World {
  heap : gmap loc (list R);      (* list and array objects *)
  stl_calls : list (list R);     (* series handed to STL, oldest first *)
  error_log : list exn           (* one entry per [logging.error] of a handler *)
}.

Definition M (A : Type) : Type := world -> result A * world.

#[global] Instance M_ret : MRet M := fun A a w => (Ok a, w).

#[global] Instance M_bind : MBind M := fun A B f m w =>
  match m w with
  | (Ok a, w') => f a w'
  | (Raise e, w') => (Raise e, w')
  end.

Definition raise {A : Type} (e : exn) : M A := fun w => (Raise e, w).

(** [try: body except Exception as e: handler e] *)
Definition try_except {A : Type} (body : M A) (handler : exn -> M A) : M A :=
  fun w =>
    match body w with
    | (Ok a, w') => (Ok a, w')
    | (Raise e, w') => handler e w'
    end.

(** [logging.error(...)] as used by the handlers: one entry per call. *)
Definition logging_error (e : exn) : M unit := fun w =>
  (Ok tt, World (heap w) (stl_calls w) (error_log w ++ [e])).

(** ** List and array objects *)

Definition deref (l : loc) (w : world) : list R := default [] (heap w !! l).

Definition set_obj (l : loc) (xs : list R) (w : world) : world :=
  World (<[l := xs]> (heap w)) (stl_calls w) (error_log w).

(** Allocation of a new object: a location not yet in the heap. *)
Definition alloc (xs : list R) : M loc := fun w =>
  let l := fresh (dom (heap w)) in (Ok l, set_obj l xs w).

(** [len(l)] *)
Definition py_len (l : loc) : M nat := fun w => (Ok (length (deref l w)), w).

(** [l.append(x)] *)
Definition list_append (l : loc) (x : R) : M unit := fun w =>
  (Ok tt, set_obj l (deref l w ++ [x]) w).

(** [l.pop(0)]: removes and returns the first element; [IndexError] on
    an empty list. *)
Definition list_pop0 (l : loc) : M R := fun w =>
  match deref l w with
  | [] => (Raise IndexError, w)
  | x :: xs => (Ok x, set_obj l xs w)
  end.

(** [l[-n:]]: the last [n] elements, the whole list when it is shorter. *)
Definition slice_last {A : Type} (n : nat) (xs : list A) : list A :=
  drop (length xs - n) xs.

(** [np.array(l)]: a new array holding a copy of the list's elements. *)
Definition np_array (l : loc) : M loc := fun w => alloc (deref l w) w.

(** [a[-1]] on a one-dimensional array value. *)
Definition getitem_last (xs : list R) : M R :=
  match last xs with
  | Some x => mret x
  | None => raise IndexError
  end.

(** ** numpy's [std] *)

Definition Rsum (xs : list R) : R := foldr Rplus 0%R xs.

Definition np_mean (xs : list R) : R := (Rsum xs / INR (length xs))%R.

(** [np.std(a)] with its default [ddof = 0], as numpy documents it:
    [sqrt(mean(abs(a - a.mean())**2))]. *)
Definition np_std (xs : list R) : R :=
  sqrt (np_mean (map (fun x => (Rabs (x - np_mean xs)) ^ 2)%R xs)).

Definition population_variance (xs : list R) : R :=
  (Rsum (map (fun x => (x - np_mean xs) * (x - np_mean xs)) xs)
     / INR (length xs))%R.

(** The population standard deviation: the square root of the mean
    squared deviation from the mean, with divisor [N]. *)
Definition population_std (xs : list R) : R := sqrt (population_variance xs).

#[global] Instance R_eq_dec : EqDecision R := Req_dec_T.
#[global] Instance Rlt_decision (x y : R) : Decision (x < y)%R := Rlt_dec x y.

(** ** The decomposition, external *)

(** What one use of [STL(series, period, robust).fit().resid] does: it
    raises or returns the residual array, and leaves some contents in
    the array it was given. *)
Record stl_outcome : Type := StlOutcome {
  stl_resid : result (list R);
  stl_endog : list R
}.

Section Detector.

Variable STL : list R -> nat -> bool -> stl_outcome.

(** Lines 197-199: [STL(series, period=24, robust=True).fit().resid]. *)
Definition stl_fit_resid (series : loc) (period : nat) (robust : bool)
  : M (list R) := fun w =>
  let xs := deref series w in
  let o := STL xs period robust in
  (stl_resid o,
   World (<[series := stl_endog o]> (heap w)) (stl_calls w ++ [xs]) (error_log w)).

(** Lines 196-207, the body of the [try]. *)
Definition score_series (series : loc) (threshold : R) : M (bool * R) :=
  residuals ← stl_fit_resid series 24 true;
  latest_residual ← getitem_last residuals;
  let resid_std := np_std residuals in
  if bool_decide (resid_std = 0%R) then mret (false, 0%R)
  else
    let anomaly_score := (Rabs latest_residual / resid_std)%R in
    let is_anomaly := bool_decide (threshold < anomaly_score)%R in
    mret (is_anomaly, anomaly_score).

(** Lines 209-211, the handler of the [try]. *)
Definition on_exception (e : exn) : M (bool * R) :=
  logging_error e ;; mret (false, 0%R).

(** Lines 182-211. *)
Definition detect_anomaly (ratios : loc) (threshold : R) : M (bool * R) :=
  n ← py_len ratios;
  if bool_decide (n < 24) then mret (false, 0%R)
  else
    series ← np_array ratios;
    try_except (score_series series threshold) on_exception.

(** ** The runs of [detect_anomaly], spelled out *)

(** The world once the array has been allocated and STL has run on it. *)
Definition fitted (history : list R) (w : world) : world :=
  let series := fresh (dom (heap w)) in
  World (<[series := stl_endog (STL history 24 true)]>
           (<[series := history]> (heap w)))
        (stl_calls w ++ [history]) (error_log w).

(** The world once the handler has logged [e]. *)
Definition logged (e : exn) (w : world) : world :=
  World (heap w) (stl_calls w) (error_log w ++ [e]).

(** The paths through [detect_anomaly]. *)
Inductive path : Type :=
  | Insufficient                                (* 191-193 *)
  | Failed (e : exn)                            (* 209-211 *)
  | Degenerate (resid : list R)                 (* 202-203 *)
  | Scored (resid : list R) (latest : R).       (* 205-207 *)

(** Which path a run on [history] takes. *)
Definition path_of (history : list R) : path :=
  if bool_decide (length history < 24) then Insufficient
  else match stl_resid (STL history 24 true) with
       | Raise e => Failed e
       | Ok resid =>
           match last resid with
           | None => Failed IndexError
           | Some latest =>
               if bool_decide (np_std resid = 0%R) then Degenerate resid
               else Scored resid latest
           end
       end.

Definition verdict_of (threshold : R) (p : path) : bool * R :=
  match p with
  | Scored resid latest =>
      (bool_decide (threshold < Rabs latest / np_std resid)%R,
       (Rabs latest / np_std resid)%R)
  | _ => (false, 0%R)
  end.

Definition world_of (history : list R) (w : world) (p : path) : world :=
  match p with
  | Insufficient => w
  | Failed e => logged e (fitted history w)
  | _ => fitted history w
  end.

End Detector.

(** ** The per-cycle ratio (lines 236-238) *)

(** [a / b] on Python integers. *)
Definition py_truediv (a b : Z) : result R :=
  if bool_decide (b = 0%Z) then Raise ZeroDivisionError
  else Ok (IZR a / IZR b)%R.

(** [(num_visits / num_pizzerias) if num_pizzerias > 0 else 0.0] *)
Definition compute_ratio (num_visits num_pizzerias : Z) : result R :=
  if bool_decide (0 < num_pizzerias)%Z then py_truediv num_visits num_pizzerias
  else Ok 0%R.

(** ** The rolling window *)

(** Lines 242-244: append, then evict the oldest entry when the list
    has grown past 72. *)
Definition update_window (ratios_history : loc) (ratio : R) : M unit :=
  list_append ratios_history ratio ;;
  n ← py_len ratios_history;
  if bool_decide (72 < n) then list_pop0 ratios_history ;; mret tt
  else mret tt.

(** The window after a sequence of cycles, one ratio per cycle. *)
Fixpoint feed (ratios_history : loc) (ratios : list R) : M unit :=
  match ratios with
  | [] => mret tt
  | x :: rest => update_window ratios_history x ;; feed ratios_history rest
  end.

(** The statistics file as [load_ratios_history] finds it. A row's
    ratio cell is [Some r] when it is present and [float] parses it to
    [r], and [None] when it is missing, empty or not a number. *)
Inductive csv_file : Type :=
  | NoFile
  | Unreadable (e : exn)
  | Rows (cells : list (option R)).

(** Lines 156-180. The returned list is a new object. *)
Definition load_ratios_history (f : csv_file) : M loc :=
  match f with
  | NoFile => alloc []
  | Unreadable e => logging_error e ;; alloc []
  | Rows cells => alloc (slice_last 72 (omap (fun c : option R => c) cells))
  end.

Definition lift {A : Type} (r : result A) : M A := fun w => (r, w).

Section Cycle.

Variable STL : list R -> nat -> bool -> stl_outcome.

(** Lines 236-247 of one iteration of [main]: the ratio, the window
    update and the detector call with the default threshold.
    [num_pizzerias] and [num_visits] are what the fetch and the
    simulation delivered. *)
Definition cycle (ratios_history : loc) (num_pizzerias num_visits : Z)
  : M (R * bool * R) :=
  ratio ← lift (compute_ratio num_visits num_pizzerias);
  update_window ratios_history ratio ;;
  verdict ← detect_anomaly STL ratios_history 3;
  mret (ratio, verdict.1, verdict.2).

End Cycle.

(** ** Control skeleton of [main] (lines 223-269) *)

(** The statements of the loop body, in program order. *)
Inductive stmt : Type :=
  | LoadKnown      (* 224 *)
  | Fetch          (* 225-226 *)
  | ReportNew      (* 229-231 *)
  | SaveKnown      (* 234 *)
  | Simulate       (* 236-237 *)
  | Ratio          (* 238-239 *)
  | UpdateWindow   (* 242-244 *)
  | Detect         (* 247 *)
  | LogStatus      (* 250-253 *)
  | Alert          (* 255-258 *)
  | SaveCsv.       (* 261 *)

Definition next_stmt (s : stmt) : option stmt :=
  match s with
  | LoadKnown => Some Fetch
  | Fetch => Some ReportNew
  | ReportNew => Some SaveKnown
  | SaveKnown => Some Simulate
  | Simulate => Some Ratio
  | Ratio => Some UpdateWindow
  | UpdateWindow => Some Detect
  | Detect => Some LogStatus
  | LogStatus => Some Alert
  | Alert => Some SaveCsv
  | SaveCsv => None
  end.

(** Statements still to run, the current one included. *)
Definition remaining (s : stmt) : nat :=
  match s with
  | LoadKnown => 11 | Fetch => 10 | ReportNew => 9 | SaveKnown => 8
  | Simulate => 7 | Ratio => 6 | UpdateWindow => 5 | Detect => 4
  | LogStatus => 3 | Alert => 2 | SaveCsv => 1
  end.

Inductive pc : Type :=
  | WhileTest              (* 223: [while not should_exit] *)
  | InCycle (s : stmt)     (* 224-261 *)
  | ForTest (i : nat)      (* 264-265: [i] seconds slept, [if should_exit] *)
  | Sleeping (i : nat)     (* 267: [time.sleep(1)] *)
  | Exited.                (* 269 *)

Record mstate : Type := MState {
  at_pc : pc;
  should_exit : bool
}.

(** One step of [main] itself. *)
Definition prog_step (s : mstate) : option mstate :=
  match at_pc s with
  | WhileTest =>
      if should_exit s then Some (MState Exited (should_exit s))
      else Some (MState (InCycle LoadKnown) (should_exit s))
  | InCycle st =>
      match next_stmt st with
      | Some st' => Some (MState (InCycle st') (should_exit s))
      | None => Some (MState (ForTest 0) (should_exit s))
      end
  | ForTest i =>
      if bool_decide (i < 3600) then
        if should_exit s then Some (MState WhileTest (should_exit s))
        else Some (MState (Sleeping i) (should_exit s))
      else Some (MState WhileTest (should_exit s))
  | Sleeping i => Some (MState (ForTest (S i)) (should_exit s))
  | Exited => None
  end.

(** [handle_termination_signal] (lines 35-41): sets the flag, nothing
    else; it can run between any two steps. *)
Definition handle_termination_signal (s : mstate) : mstate :=
  MState (at_pc s) true.

Inductive action : Type :=
  | Tick       (* [main] takes its next step *)
  | Signal.    (* a termination signal is delivered *)

Definition do_action (s : mstate) (a : action) : mstate :=
  match a with
  | Tick => default s (prog_step s)
  | Signal => handle_termination_signal s
  end.

Definition exec (sched : list action) (s : mstate) : mstate :=
  foldl do_action s sched.

(** Steps [main] takes under a schedule. *)
Fixpoint ticks (sched : list action) : nat :=
  match sched with
  | [] => 0
  | Tick :: rest => S (ticks rest)
  | Signal :: rest => ticks rest
  end.

Definition in_cycle (s : mstate) : bool :=
  match at_pc s with InCycle _ => true | _ => false end.

(** A step that enters the loop body. *)
Definition begins_cycle (s s' : mstate) : Prop :=
  in_cycle s = false /\ in_cycle s' = true.

(** ** Fetching the establishments (lines 71-97) *)

Definition KeyError : exn := LibraryError "KeyError".

(** An object of the [elements] array, in the shape the code reads it:
    each key may be missing; [lat] and [lon] are numbers, [tags] is an
    object of strings. *)
Record element : Type := Element {
  el_id : option Z;
  el_lat : option R;
  el_lon : option R;
  el_tags : option (gmap string string)
}.

(** [d[k] = v] on a dict with integer keys, kept in insertion order: a
    key already present keeps its position and takes the new value. *)
Fixpoint dict_setitem {V : Type} (d : list (Z * V)) (k : Z) (v : V)
  : list (Z * V) :=
  match d with
  | [] => [(k, v)]
  | (k', v') :: rest =>
      if bool_decide (k' = k) then (k', v) :: rest
      else (k', v') :: dict_setitem rest k v
  end.

(** [d.values()] *)
Definition dict_values {V : Type} (d : list (Z * V)) : list V := map snd d.

(** [element['id']] *)
Definition getitem_id (el : element) : result Z :=
  match el_id el with
  | Some pid => Ok pid
  | None => Raise KeyError
  end.

(** Lines 77-78: [unique_pizzerias[element['id']] = element] for each
    element. *)
Fixpoint collect_unique (elements : list element)
    (unique_pizzerias : list (Z * element)) : result (list (Z * element)) :=
  match elements with
  | [] => Ok unique_pizzerias
  | el :: rest =>
      match getitem_id el with
      | Ok pid => collect_unique rest (dict_setitem unique_pizzerias pid el)
      | Raise e => Raise e
      end
  end.

(** [(id, latitude, longitude, name)] *)
Definition pizzeria : Type := Z * option R * option R * string.

(** [el.get('tags', {}).get('name', 'Unknown')] *)
Definition element_name (el : element) : string :=
  match el_tags el with
  | Some tags => default "Unknown" (tags !! "name")
  | None => "Unknown"
  end.

(** Lines 82-86, one turn of the second loop. *)
Definition describe (el : element) : result pizzeria :=
  match getitem_id el with
  | Ok pid => Ok (pid, el_lat el, el_lon el, element_name el)
  | Raise e => Raise e
  end.

(** Lines 80-86. *)
Fixpoint describe_all (els : list element) : result (list pizzeria) :=
  match els with
  | [] => Ok []
  | el :: rest =>
      match describe el with
      | Ok p =>
          match describe_all rest with
          | Ok ps => Ok (p :: ps)
          | Raise e => Raise e
          end
      | Raise e => Raise e
      end
  end.

(** What the request of lines 72-74 came to: [requests.post] or
    [raise_for_status] raised, [response.json()] raised, or the body
    was a JSON object, with or without an [elements] key. *)
Inductive http_outcome : Type :=
  | RequestFailed (e : exn)
  | JsonInvalid (e : exn)
  | JsonObject (elements : option (list element)).

(** Lines 76-88, the part of the [try] after the response is decoded. *)
Definition build_results (elements : option (list element))
  : result (list pizzeria) :=
  match collect_unique (default [] elements) [] with
  | Ok unique_pizzerias => describe_all (dict_values unique_pizzerias)
  | Raise e => Raise e
  end.

(** Lines 71-97. Each handler logs and falls through to [return []]. *)
Definition fetch_pizzerias (response : http_outcome) : M (list pizzeria) :=
  match response with
  | RequestFailed e => logging_error e ;; mret []
  | JsonInvalid e => logging_error e ;; mret []
  | JsonObject elements =>
      try_except (fun w => (build_results elements, w))
        (fun e => logging_error e ;; mret [])
  end.

Definition pizzeria_id (p : pizzeria) : Z := p.1.1.1.

(** The last object of the array that carries the id [pid]. *)
Definition last_with_id (pid : Z) (elements : list element) : option element :=
  last (filter (fun el => el_id el = Some pid) elements).

(** ** The simulated visits (lines 127-135) *)

Section Simulation.

(** [draws k] is what the [k]-th evaluation of [random.randint(3, 15)]
    returns. *)
Variable draws : nat -> Z.

(** [sum(random.randint(3, 15) for _ in range(num_pizzerias))] *)
Definition simulate_visits (num_pizzerias : Z) : Z :=
  foldl Z.add 0%Z (map draws (seq 0 (Z.to_nat num_pizzerias))).

End Simulation.

(** ** The file of known establishments (lines 99-125) *)

(** [str.isspace] on the characters below 256. *)
Definition py_isspace (c : ascii) : bool :=
  let n := nat_of_ascii c in
  bool_decide (9 <= n <= 13) || bool_decide (28 <= n <= 32)
  || bool_decide (n = 133) || bool_decide (n = 160).

Fixpoint lstrip (s : string) : string :=
  match s with
  | EmptyString => EmptyString
  | String c rest => if py_isspace c then lstrip rest else s
  end.

Fixpoint rstrip (s : string) : string :=
  match s with
  | EmptyString => EmptyString
  | String c rest =>
      match rstrip rest with
      | EmptyString => if py_isspace c then EmptyString else String c EmptyString
      | kept => String c kept
      end
  end.

(** [s.strip()] *)
Definition strip (s : string) : string := rstrip (lstrip s).

Definition LF : ascii := ascii_of_nat 10.
Definition CR : ascii := ascii_of_nat 13.

(** Reading in text mode: ["\r\n"] and a lone ["\r"] become ["\n"]. *)
Fixpoint universal_newlines (s : string) : string :=
  match s with
  | EmptyString => EmptyString
  | String c rest =>
      if bool_decide (c = CR) then
        match rest with
        | String c' rest' =>
            if bool_decide (c' = LF) then String LF (universal_newlines rest')
            else String LF (universal_newlines rest)
        | EmptyString => String LF EmptyString
        end
      else String c (universal_newlines rest)
  end.

(** [for line in file]: the lines, each with its newline. *)
Fixpoint iter_lines (s : string) : list string :=
  match s with
  | EmptyString => []
  | String c rest =>
      if bool_decide (c = LF) then String c EmptyString :: iter_lines rest
      else match iter_lines rest with
           | [] => [String c EmptyString]
           | line :: lines => String c line :: lines
           end
  end.

(** The file as a call finds it. *)
Inductive text_file : Type :=
  | Absent                       (* [os.path.exists] is false *)
  | ReadError (e : exn)          (* opening or reading raises *)
  | Text (content : string).

(** Lines 99-112. *)
Definition load_known_pizzerias (f : text_file) : M (gset string) :=
  match f with
  | Absent => mret ∅
  | ReadError e => logging_error e ;; mret ∅
  | Text content =>
      mret (list_to_set (map strip (iter_lines (universal_newlines content))))
  end.

(** What writing ["\n"] in text mode puts in the file. *)
Inductive platform : Type := Posix | Windows.

Definition linesep (os : platform) : string :=
  match os with
  | Posix => String LF EmptyString
  | Windows => String CR (String LF EmptyString)
  end.

(** Writing in text mode: each ["\n"] goes out as the platform's line
    separator. *)
Fixpoint write_text (os : platform) (s : string) : string :=
  match s with
  | EmptyString => EmptyString
  | String c rest =>
      if bool_decide (c = LF) then linesep os +:+ write_text os rest
      else String c (write_text os rest)
  end.

(** The text the loop of lines 122-123 leaves in the file, [order]
    being the order in which the set is iterated: one
    [file.write(f"{pid}\n")] per id. *)
Fixpoint written_ids (os : platform) (order : list string) : string :=
  match order with
  | [] => EmptyString
  | pid :: rest =>
      write_text os (pid +:+ String LF EmptyString) +:+ written_ids os rest
  end.

(** Lines 114-125. [opened] is what [open(..., 'w')] does: it raises,
    leaving the file as it was, or the file is rewritten. *)
Definition save_known_pizzerias (os : platform) (opened : result unit)
    (order : list string) (f : text_file) : M text_file :=
  match opened with
  | Raise e => logging_error e ;; mret f
  | Ok _ => mret (Text (written_ids os order))
  end.

(** ** Consecutive cycles *)

Section Cycles.

Variable STL : list R -> nat -> bool -> stl_outcome.

(** The loop body of [main] run once per pair of counts, lines 236-247
    of each iteration. *)
Fixpoint run_cycles (ratios_history : loc) (counts : list (Z * Z))
  : M (list (R * bool * R)) :=
  match counts with
  | [] => mret []
  | (num_pizzerias, num_visits) :: rest =>
      out ← cycle STL ratios_history num_pizzerias num_visits;
      outs ← run_cycles ratios_history rest;
      mret (out :: outs)
  end.

End Cycles.

(** ** The scoring path on floats that may be NaN *)

(** A float that is a real number or NaN. Rounding and the infinities
    stay outside. *)
Inductive pyfloat : Type :=
  | Finite (r : R)
  | NaN.

(** [abs(x)] *)
Definition fp_abs (x : pyfloat) : pyfloat :=
  match x with
  | Finite r => Finite (Rabs r)
  | NaN => NaN
  end.

(** [x / y]; NaN when an operand is. The source divides behind the
    guard of line 202 only. *)
Definition fp_div (x y : pyfloat) : pyfloat :=
  match x, y with
  | Finite a, Finite b => Finite (a / b)%R
  | _, _ => NaN
  end.

(** [x == y]: false when an operand is NaN. *)
Definition fp_eqb (x y : pyfloat) : bool :=
  match x, y with
  | Finite a, Finite b => bool_decide (a = b)
  | _, _ => false
  end.

(** [x > y]: false when an operand is NaN. *)
Definition fp_gtb (x y : pyfloat) : bool :=
  match x, y with
  | Finite a, Finite b => bool_decide (b < a)%R
  | _, _ => false
  end.


(** The entries as reals, when none is NaN. *)
Fixpoint finite_values (xs : list pyfloat) : option (list R) :=
  match xs with
  | [] => Some []
  | Finite r :: rest =>
      match finite_values rest with
      | Some rs => Some (r :: rs)
      | None => None
      end
  | NaN :: _ => None
  end.

(** [np.std(a)]: NaN on an empty array and on an array holding a NaN. *)
Definition np_std_fp (xs : list pyfloat) : pyfloat :=
  match xs with
  | [] => NaN
  | _ => match finite_values xs with
         | Some rs => Finite (np_std rs)
         | None => NaN
         end
  end.

Section DetectorNaN.

(** [STL(series, period, robust).fit().resid] on such floats: it
    raises or returns the residual array. *)
Variable STLf : list pyfloat -> nat -> bool -> result (list pyfloat).

(** Lines 196-207, the values only: the effects are those of
    [score_series]. *)
Definition score_series_fp (series : list pyfloat) (threshold : pyfloat)
  : result (bool * pyfloat) :=
  match STLf series 24 true with
  | Raise e => Raise e
  | Ok residuals =>
      match last residuals with
      | None => Raise IndexError
      | Some latest_residual =>
          let resid_std := np_std_fp residuals in
          if fp_eqb resid_std (Finite 0) then Ok (false, Finite 0)
          else
            let anomaly_score := fp_div (fp_abs latest_residual) resid_std in
            let is_anomaly := fp_gtb anomaly_score threshold in
            Ok (is_anomaly, anomaly_score)
      end
  end.

(** Lines 182-211, the values only. *)
Definition detect_anomaly_fp (ratios : list pyfloat) (threshold : pyfloat)
  : result (bool * pyfloat) :=
  if bool_decide (length ratios < 24) then Ok (false, Finite 0)
  else
    match score_series_fp ratios threshold with
    | Ok verdict => Ok verdict
    | Raise e => Ok (false, Finite 0)
    end.

End DetectorNaN.

(** ** Definitions used in the statements below *)

(** The dict maps each key to an object carrying that id. *)
Definition keyed (d : list (Z * element)) : Prop :=
  Forall (fun kv => el_id kv.2 = Some kv.1) d.

(** The entry built from a dict item. *)
Definition as_pizzeria (kv : Z * element) : pizzeria :=
  (kv.1, el_lat kv.2, el_lon kv.2, element_name kv.2).

(** The ids of a sequence, each at its first occurrence. *)
Fixpoint first_occurrences (ids : list Z) : list Z :=
  match ids with
  | [] => []
  | k :: rest => k :: filter (fun j => j <> k) (first_occurrences rest)
  end.

(** No character of the string is whitespace. *)
Fixpoint no_whitespace (s : string) : bool :=
  match s with
  | EmptyString => true
  | String c rest => negb (py_isspace c) && no_whitespace rest
  end.

(** ** One iteration of [main] (lines 224-247) *)

(** [{str(pid) for pid, _, _, _ in current_pizzerias}] *)
Definition ids_of (current_pizzerias : list pizzeria) : gset string :=
  list_to_set (map (fun p => pretty (pizzeria_id p)) current_pizzerias).

Section Iteration.

Variable STL : list R -> nat -> bool -> stl_outcome.

(** The order in which a set of ids is iterated when it is written. *)
Variable iter_order : gset string -> list string.

(** Lines 224-247 of one iteration of [main]. [f] is the file of known
    ids as the iteration finds it, [response] what the request comes
    to, [opened] what opening the file for writing does, [draws] the
    draws of the simulation. The iteration yields the new ids, the
    file as it leaves it and the cycle's output. *)
Definition iteration (os : platform) (f : text_file) (response : http_outcome)
    (opened : result unit) (draws : nat -> Z) (ratios_history : loc)
  : M (gset string * text_file * (R * bool * R)) :=
  known_pizzerias ← load_known_pizzerias f;
  current_pizzerias ← fetch_pizzerias response;
  let current_ids := ids_of current_pizzerias in
  let new_pizzerias := current_ids ∖ known_pizzerias in
  f' ← save_known_pizzerias os opened (iter_order current_ids) f;
  let num_pizzerias := Z.of_nat (length current_pizzerias) in
  let num_visits := simulate_visits draws num_pizzerias in
  out ← cycle STL ratios_history num_pizzerias num_visits;
  mret (new_pizzerias, f', out).

End Iteration.

(** Steps [main] still takes before its exit once the flag is set. *)
Definition steps_to_exit (s : mstate) : nat :=
  match at_pc s with
  | Exited => 0
  | WhileTest => 1
  | ForTest _ => 2
  | Sleeping _ => 3
  | InCycle st => remaining st + 2
  end.

(** ** Sample inputs *)

(** A decomposition that leaves one large residual at the end. *)
Definition spike_resid : list R := replicate 23 0%R ++ [24%R].

Definition stl_spike (endog : list R) (period : nat) (robust : bool)
  : stl_outcome := StlOutcome (Ok spike_resid) endog.




(** A decomposition whose fit fails and which has scribbled on the
    array it was given. *)
Definition stl_failing (endog : list R) (period : nat) (robust : bool)
  : stl_outcome :=
  StlOutcome (Raise (LibraryError "LinAlgError")) (map (fun _ => 0%R) endog).

(** A world whose only object is the history list, at location 1. *)
Definition world_with (history : list R) : world :=
  World {[1%positive := history]} [] [].

(** An answer in which the id 7 comes twice. *)
Definition sample_elements : list element :=
  [Element (Some 7%Z) (Some 1%R) (Some 2%R) (Some {["name" := "Luigi"]});
   Element (Some 9%Z) None None None;
   Element (Some 7%Z) (Some 3%R) (Some 4%R) None].

Definition sample_results : list pizzeria :=
  [(7%Z, Some 3%R, Some 4%R, "Unknown"); (9%Z, None, None, "Unknown")].

(** A later answer: 9 is still there, 12 has appeared. *)
Definition later_elements : list element :=
  [Element (Some 9%Z) None None None;
   Element (Some 12%Z) None None (Some {["name" := "Sole"]})].

Definition later_results : list pizzeria :=
  [(9%Z, None, None, "Unknown"); (12%Z, None, None, "Sole")].








(** * Properties *)

(** ** The heap *)

Lemma deref_lookup (l : loc) (w : world) (xs : list R) :
  heap w !! l = Some xs -> deref l w = xs.
Proof. unfold deref. intros ->. reflexivity. Qed.

Lemma deref_set_obj (l : loc) (xs : list R) (w : world) :
  deref l (set_obj l xs w) = xs.
Proof. unfold deref, set_obj. simpl. rewrite lookup_insert_eq. reflexivity. Qed.

Lemma fresh_loc_not_in (w : world) : heap w !! fresh (dom (heap w)) = None.
Proof. apply not_elem_of_dom, is_fresh. Qed.

Lemma lookup_allocated_ne (l : loc) (w : world) :
  is_Some (heap w !! l) -> l <> fresh (dom (heap w)).
Proof.
  intros Hl ->. rewrite fresh_loc_not_in in Hl. by destruct Hl.
Qed.

(** ** The standard deviation *)


Lemma np_std_population (xs : list R) : np_std xs = population_std xs.
Proof.
  unfold np_std, population_std, population_variance, np_mean at 1.
  rewrite length_map. do 3 f_equal.
  apply map_ext. intros x. simpl. rewrite Rmult_1_r.
  unfold Rabs. destruct (Rcase_abs _); lra.
Qed.

Lemma np_std_nonneg (xs : list R) : (0 <= np_std xs)%R.
Proof. apply sqrt_pos. Qed.




(** ** Runs of the detector *)

Section DetectorRuns.

Variable STL : list R -> nat -> bool -> stl_outcome.


Ltac run_detector :=
  unfold detect_anomaly, on_exception, score_series, try_except, np_array, alloc,
    stl_fit_resid, py_len, getitem_last, logging_error, raise,
    mbind, M_bind, mret, M_ret;
  simpl.

Lemma detect_anomaly_short (ratios : loc) (threshold : R) (w : world) :
  length (deref ratios w) < 24 ->
  detect_anomaly STL ratios threshold w = (Ok (false, 0%R), w).
Proof.
  intros Hlen. run_detector. rewrite bool_decide_true by done. reflexivity.
Qed.

Lemma detect_anomaly_raise (ratios : loc) (threshold : R) (w : world) (e : exn) :
  24 <= length (deref ratios w) ->
  stl_resid (STL (deref ratios w) 24 true) = Raise e ->
  detect_anomaly STL ratios threshold w
  = (Ok (false, 0%R), logged e (fitted STL (deref ratios w) w)).
Proof.
  intros Hlen Hfit. run_detector. rewrite bool_decide_false by lia.
  rewrite deref_set_obj, Hfit. reflexivity.
Qed.

Lemma detect_anomaly_empty (ratios : loc) (threshold : R) (w : world)
    (resid : list R) :
  24 <= length (deref ratios w) ->
  stl_resid (STL (deref ratios w) 24 true) = Ok resid ->
  last resid = None ->
  detect_anomaly STL ratios threshold w
  = (Ok (false, 0%R), logged IndexError (fitted STL (deref ratios w) w)).
Proof.
  intros Hlen Hfit Hlast. run_detector. rewrite bool_decide_false by lia.
  rewrite deref_set_obj, Hfit, Hlast. reflexivity.
Qed.

Lemma detect_anomaly_degenerate (ratios : loc) (threshold : R) (w : world)
    (resid : list R) (latest : R) :
  24 <= length (deref ratios w) ->
  stl_resid (STL (deref ratios w) 24 true) = Ok resid ->
  last resid = Some latest ->
  np_std resid = 0%R ->
  detect_anomaly STL ratios threshold w
  = (Ok (false, 0%R), fitted STL (deref ratios w) w).
Proof.
  intros Hlen Hfit Hlast Hstd. run_detector. rewrite bool_decide_false by lia.
  rewrite deref_set_obj, Hfit, Hlast, bool_decide_true by done. reflexivity.
Qed.

Lemma detect_anomaly_scored (ratios : loc) (threshold : R) (w : world)
    (resid : list R) (latest : R) :
  24 <= length (deref ratios w) ->
  stl_resid (STL (deref ratios w) 24 true) = Ok resid ->
  last resid = Some latest ->
  np_std resid <> 0%R ->
  detect_anomaly STL ratios threshold w
  = (Ok (bool_decide (threshold < Rabs latest / np_std resid)%R,
         (Rabs latest / np_std resid)%R),
     fitted STL (deref ratios w) w).
Proof.
  intros Hlen Hfit Hlast Hstd. run_detector. rewrite bool_decide_false by lia.
  rewrite deref_set_obj, Hfit, Hlast, bool_decide_false by done. reflexivity.
Qed.


(** [detect_anomaly] always returns, with the verdict of its path. *)
Lemma detect_anomaly_run (ratios : loc) (threshold : R) (w : world) :
  detect_anomaly STL ratios threshold w
  = (Ok (verdict_of threshold (path_of STL (deref ratios w))),
     world_of STL (deref ratios w) w (path_of STL (deref ratios w))).
Proof.
  unfold path_of. case_bool_decide as Hlen.
  { by apply detect_anomaly_short. }
  apply Nat.nlt_ge in Hlen.
  destruct (stl_resid (STL (deref ratios w) 24 true)) as [resid|e] eqn:Hfit.
  2: { by apply detect_anomaly_raise. }
  destruct (last resid) as [latest|] eqn:Hlast.
  2: { by eapply detect_anomaly_empty. }
  case_bool_decide as Hstd.
  - by eapply detect_anomaly_degenerate.
  - by eapply detect_anomaly_scored.
Qed.

(** Objects that exist before the call hold the same contents after it. *)
Lemma world_of_frame (history : list R) (w : world) (p : path) (l : loc) :
  is_Some (heap w !! l) ->
  heap (world_of STL history w p) !! l = heap w !! l.
Proof.
  intros Hl. pose proof (lookup_allocated_ne l w Hl) as Hne.
  destruct p; simpl; try reflexivity;
    by rewrite !lookup_insert_ne.
Qed.

(** ** The detector's verdicts *)


(** C2. On a history of fewer than 24 entries the detector returns
    [(False, 0.0)] at once: the world is left as it was, so no array
    was allocated and no call of STL was recorded. *)
Theorem detect_anomaly_insufficient_data (ratios : loc) (threshold : R)
    (w : world) (history : list R) :
  heap w !! ratios = Some history ->
  length history < 24 ->
  exists w' : world,
    detect_anomaly STL ratios threshold w = (Ok (false, 0%R), w') /\
    w' = w /\
    stl_calls w' = stl_calls w.
Proof.
  intros Hh Hlen. apply deref_lookup in Hh. rewrite <- Hh in Hlen.
  exists w. split; [by apply detect_anomaly_short|done].
Qed.

(** From 24 entries on, STL is called exactly once, on a copy of the
    history. *)
Lemma detect_anomaly_calls_stl (ratios : loc) (threshold : R) (w : world) :
  24 <= length (deref ratios w) ->
  exists (v : bool * R) (w' : world),
    detect_anomaly STL ratios threshold w = (Ok v, w') /\
    stl_calls w' = stl_calls w ++ [deref ratios w].
Proof.
  intros Hlen. rewrite detect_anomaly_run. eexists _, _. split; [reflexivity|].
  unfold path_of. rewrite bool_decide_false by lia.
  destruct (stl_resid _) as [resid|e]; [|reflexivity].
  destruct (last resid); [|reflexivity].
  by case_bool_decide.
Qed.

(** C4. On a history of at least 24 entries the detector always
    returns a verdict and never raises. When the decomposition raises,
    or the residual array has no last element, the exception is logged
    and the verdict is [(False, 0.0)]; more generally, whatever the
    body of the [try] is, the handler turns every exception it raises
    into that verdict. *)
Theorem detect_anomaly_never_raises (ratios : loc) (threshold : R)
    (w : world) (history : list R) :
  heap w !! ratios = Some history ->
  24 <= length history ->
  (exists (v : bool * R) (w' : world),
     detect_anomaly STL ratios threshold w = (Ok v, w')) /\
  (forall e : exn, stl_resid (STL history 24 true) = Raise e ->
     exists w' : world,
       detect_anomaly STL ratios threshold w = (Ok (false, 0%R), w') /\
       error_log w' = error_log w ++ [e]) /\
  (forall resid : list R, stl_resid (STL history 24 true) = Ok resid ->
     last resid = None ->
     exists w' : world,
       detect_anomaly STL ratios threshold w = (Ok (false, 0%R), w') /\
       error_log w' = error_log w ++ [IndexError]) /\
  (forall (body : M (bool * R)) (w0 : world),
     exists (v : bool * R) (w1 : world),
       try_except body on_exception w0 = (Ok v, w1) /\
       (forall (e : exn) (w' : world), body w0 = (Raise e, w') ->
          v = (false, 0%R) /\ error_log w1 = error_log w' ++ [e])).
Proof.
  intros Hh Hlen. apply deref_lookup in Hh. rewrite <- Hh in *.
  split; [|split; [|split]].
  - rewrite detect_anomaly_run. by eexists _, _.
  - intros e Hfit. eexists. split; [by apply detect_anomaly_raise|reflexivity].
  - intros resid Hfit Hlast. eexists.
    split; [by eapply detect_anomaly_empty|reflexivity].
  - intros body w0. unfold try_except.
    destruct (body w0) as [[v|e] w1] eqn:Hbody.
    + eexists _, _. split; [reflexivity|]. intros e w' [=].
    + eexists _, _. split; [reflexivity|]. intros e' w' [= <- <-]. done.
Qed.


(** C8. For a non-negative threshold the returned pair is consistent:
    the flag is set exactly when the returned score is strictly above
    the threshold. On each degraded path (fewer than 24 entries, an
    exception in the [try], a zero standard deviation) the pair is
    [(False, 0.0)]. *)
Theorem detect_anomaly_consistent (ratios : loc) (threshold : R) (w : world) :
  (0 <= threshold)%R ->
  exists (is_anomaly : bool) (score : R) (w' : world),
    detect_anomaly STL ratios threshold w = (Ok (is_anomaly, score), w') /\
    (is_anomaly = true <-> (threshold < score)%R) /\
    (length (deref ratios w) < 24 -> is_anomaly = false /\ score = 0%R) /\
    (forall e : exn, 24 <= length (deref ratios w) ->
       stl_resid (STL (deref ratios w) 24 true) = Raise e ->
       is_anomaly = false /\ score = 0%R) /\
    (forall resid : list R, 24 <= length (deref ratios w) ->
       stl_resid (STL (deref ratios w) 24 true) = Ok resid ->
       last resid = None \/ np_std resid = 0%R ->
       is_anomaly = false /\ score = 0%R).
Proof.
  intros Hthr.
  exists (verdict_of threshold (path_of STL (deref ratios w))).1,
         (verdict_of threshold (path_of STL (deref ratios w))).2,
         (world_of STL (deref ratios w) w (path_of STL (deref ratios w))).
  split; [rewrite detect_anomaly_run; by destruct (verdict_of _ _)|].
  split; [|split; [|split]].
  - destruct (path_of STL (deref ratios w)); simpl;
      try (split; [done|lra]).
    apply bool_decide_eq_true.
  - intros Hlen. unfold path_of. by rewrite bool_decide_true.
  - intros e Hlen Hfit. unfold path_of.
    rewrite bool_decide_false, Hfit by lia. done.
  - intros resid Hlen Hfit Hdeg. unfold path_of.
    rewrite bool_decide_false, Hfit by lia.
    destruct (last resid) as [latest|]; [|done].
    destruct Hdeg as [[=]|Hstd]. by rewrite bool_decide_true.
Qed.

(** On real numbers the returned score is never negative: it is 0.0,
    or it is the magnitude of the latest residual over a strictly
    positive standard deviation. With NaN among the residuals this is
    lost: see the scoring path with NaN at the end. *)
Theorem detect_anomaly_score_nonneg (ratios : loc) (threshold : R) (w : world) :
  exists (is_anomaly : bool) (score : R) (w' : world),
    detect_anomaly STL ratios threshold w = (Ok (is_anomaly, score), w') /\
    (0 <= score)%R /\
    (score = 0%R \/
     exists (resid : list R) (latest : R),
       stl_resid (STL (deref ratios w) 24 true) = Ok resid /\
       last resid = Some latest /\
       (0 < np_std resid)%R /\
       score = (Rabs latest / np_std resid)%R).
Proof.
  exists (verdict_of threshold (path_of STL (deref ratios w))).1,
         (verdict_of threshold (path_of STL (deref ratios w))).2,
         (world_of STL (deref ratios w) w (path_of STL (deref ratios w))).
  split; [rewrite detect_anomaly_run; by destruct (verdict_of _ _)|].
  unfold path_of. case_bool_decide as Hlen; [simpl; split; [lra|by left]|].
  destruct (stl_resid _) as [resid|e] eqn:Hfit; [|simpl; split; [lra|by left]].
  destruct (last resid) as [latest|] eqn:Hlast; [|simpl; split; [lra|by left]].
  case_bool_decide as Hstd; [simpl; split; [lra|by left]|].
  assert (Hpos : (0 < np_std resid)%R).
  { pose proof (np_std_nonneg resid). lra. }
  simpl. split.
  - apply Rmult_le_pos; [apply Rabs_pos|].
    left. by apply Rinv_0_lt_compat.
  - right. by exists resid, latest.
Qed.

End DetectorRuns.

(** ** The rolling window *)

Lemma slice_last_length {A : Type} (n : nat) (xs : list A) :
  length (slice_last n xs) <= n.
Proof. unfold slice_last. rewrite length_drop. lia. Qed.

Lemma slice_last_short {A : Type} (n : nat) (xs : list A) :
  length xs <= n -> slice_last n xs = xs.
Proof.
  intros Hlen. unfold slice_last.
  replace (length xs - n) with 0 by lia. apply drop_0.
Qed.

Lemma slice_last_suffix {A : Type} (n : nat) (xs : list A) :
  slice_last n xs `suffix_of` xs.
Proof. apply suffix_drop. Qed.

(** Truncating, appending and truncating again is truncating once. *)
Lemma slice_last_app {A : Type} (n : nat) (xs ys : list A) :
  slice_last n (slice_last n xs ++ ys) = slice_last n (xs ++ ys).
Proof.
  unfold slice_last.
  rewrite <- (drop_app_le xs ys (length xs - n)) by lia.
  rewrite drop_drop, length_drop, !length_app. f_equal. lia.
Qed.

Lemma update_window_run (ratios_history : loc) (ratio : R) (w : world) :
  length (deref ratios_history w) <= 72 ->
  exists w' : world,
    update_window ratios_history ratio w = (Ok tt, w') /\
    heap w'
    = <[ratios_history := slice_last 72 (deref ratios_history w ++ [ratio])]>
        (heap w) /\
    stl_calls w' = stl_calls w /\
    error_log w' = error_log w.
Proof.
  intros Hlen.
  unfold update_window, list_append, py_len, list_pop0, mbind, M_bind,
    mret, M_ret.
  rewrite !deref_set_obj.
  set (win := deref ratios_history w) in *.
  case_bool_decide as Hfull.
  - rewrite length_app in Hfull. simpl in Hfull.
    destruct win as [|oldest rest]; [simpl in Hfull; lia|].
    simpl in *. rewrite deref_set_obj. eexists. split; [reflexivity|].
    split; [|done]. simpl. rewrite insert_insert_eq. f_equal.
    unfold slice_last. simpl. rewrite length_app. simpl.
    replace (length rest + 1 - 71) with 1 by lia. reflexivity.
  - eexists. split; [reflexivity|]. split; [|done]. simpl. f_equal.
    rewrite slice_last_short; [done|]. lia.
Qed.

Lemma feed_run (ratios_history : loc) (ratios : list R) :
  forall (w : world) (window : list R),
    heap w !! ratios_history = Some window ->
    length window <= 72 ->
    exists w' : world,
      feed ratios_history ratios w = (Ok tt, w') /\
      heap w' !! ratios_history = Some (slice_last 72 (window ++ ratios)).
Proof.
  induction ratios as [|x rest IH]; intros w window Hw Hlen.
  - exists w. split; [reflexivity|].
    rewrite app_nil_r, slice_last_short; done.
  - pose proof (deref_lookup _ _ _ Hw) as Hd.
    destruct (update_window_run ratios_history x w) as (w1 & Hrun & Hheap & _).
    { by rewrite Hd. }
    rewrite Hd in Hheap.
    destruct (IH w1 (slice_last 72 (window ++ [x]))) as (w2 & Hfeed & Hw2).
    { rewrite Hheap. apply lookup_insert_eq. }
    { apply slice_last_length. }
    exists w2. split.
    + simpl. unfold mbind, M_bind. rewrite Hrun. exact Hfeed.
    + rewrite Hw2, slice_last_app, <- app_assoc. reflexivity.
Qed.

Lemma load_ratios_history_run (f : csv_file) (w : world) :
  exists (l : loc) (w' : world) (window : list R),
    load_ratios_history f w = (Ok l, w') /\
    heap w !! l = None /\
    heap w' !! l = Some window /\
    length window <= 72 /\
    (forall cells : list (option R), f = Rows cells ->
       window = slice_last 72 (omap (fun c : option R => c) cells)).
Proof.
  destruct f as [|e|cells]; simpl;
    unfold alloc, logging_error, mbind, M_bind; simpl.
  - eexists _, _, _. split; [reflexivity|].
    split; [apply fresh_loc_not_in|].
    split; [apply lookup_insert_eq|]. split; [simpl; lia|]. by intros ? [=].
  - eexists _, _, _. split; [reflexivity|].
    split; [apply fresh_loc_not_in|].
    split; [apply lookup_insert_eq|]. split; [simpl; lia|]. by intros ? [=].
  - eexists _, _, _. split; [reflexivity|].
    split; [apply fresh_loc_not_in|].
    split; [apply lookup_insert_eq|]. split; [apply slice_last_length|].
    by intros ? [= <-].
Qed.

(** C3. The rolling window never holds more than 72 observations.
    From a window of at most 72 entries, one append-then-evict step
    succeeds and leaves the last 72 entries of the old window followed
    by the new value, in order: the oldest entry goes when the window
    was full, nothing goes otherwise. Feeding 100 values in sequence
    leaves exactly the last 72 of them. At startup the loader returns
    a new list holding the most recent 72 recovered entries. *)
Theorem window_at_most_72 (ratios_history : loc) (w : world) (window : list R) :
  heap w !! ratios_history = Some window ->
  length window <= 72 ->
  (forall ratio : R,
     exists (w' : world) (window' : list R),
       update_window ratios_history ratio w = (Ok tt, w') /\
       heap w' !! ratios_history = Some window' /\
       length window' <= 72 /\
       window' = slice_last 72 (window ++ [ratio]) /\
       window' `suffix_of` window ++ [ratio] /\
       (length window = 72 -> window' = tail window ++ [ratio]) /\
       (length window < 72 -> window' = window ++ [ratio])) /\
  (forall ratios : list R,
     exists w' : world,
       feed ratios_history ratios w = (Ok tt, w') /\
       heap w' !! ratios_history = Some (slice_last 72 (window ++ ratios)) /\
       length (slice_last 72 (window ++ ratios)) <= 72 /\
       (length ratios = 100 ->
        slice_last 72 (window ++ ratios) = drop 28 ratios)) /\
  (forall (f : csv_file) (w0 : world),
     exists (l : loc) (w' : world) (recovered : list R),
       load_ratios_history f w0 = (Ok l, w') /\
       heap w' !! l = Some recovered /\
       length recovered <= 72 /\
       (forall cells : list (option R), f = Rows cells ->
          recovered = slice_last 72 (omap (fun c : option R => c) cells))).
Proof.
  intros Hw Hlen. pose proof (deref_lookup _ _ _ Hw) as Hd.
  split; [|split].
  - intros ratio.
    destruct (update_window_run ratios_history ratio w) as (w' & Hrun & Hheap & _).
    { by rewrite Hd. }
    rewrite Hd in Hheap.
    exists w', (slice_last 72 (window ++ [ratio])).
    split; [exact Hrun|].
    split; [rewrite Hheap; apply lookup_insert_eq|].
    split; [apply slice_last_length|]. split; [reflexivity|].
    split; [apply slice_last_suffix|]. split.
    + intros Hfull. unfold slice_last. rewrite length_app. simpl.
      replace (length window + 1 - 72) with 1 by lia.
      destruct window; [simpl in Hfull; lia|]. reflexivity.
    + intros Hroom. apply slice_last_short. rewrite length_app. simpl. lia.
  - intros ratios.
    destruct (feed_run ratios_history ratios w window Hw Hlen) as (w' & Hrun & Hw').
    exists w'. split; [exact Hrun|]. split; [exact Hw'|].
    split; [apply slice_last_length|].
    intros H100. unfold slice_last. rewrite length_app, H100.
    replace (length window + 100 - 72) with (length window + 28) by lia.
    apply drop_app_add.
  - intros f w0.
    destruct (load_ratios_history_run f w0) as (l & w' & rec & Hrun & _ & Hl & Hn & Hc).
    by exists l, w', rec.
Qed.

(** ** The per-cycle ratio *)

Lemma compute_ratio_total (num_visits num_pizzerias : Z) :
  exists ratio : R, compute_ratio num_visits num_pizzerias = Ok ratio.
Proof.
  unfold compute_ratio, py_truediv. case_bool_decide as Hpos.
  - rewrite bool_decide_false by lia. by eexists.
  - by eexists.
Qed.

(** C6. The ratio is [visits / count] when [count > 0] and [0.0] when
    [count = 0]; the division is only reached with a non-zero divisor,
    so the computation never raises [ZeroDivisionError], although the
    bare division would at zero. For non-negative [visits] and [count]
    the ratio is a non-negative real. *)
Theorem compute_ratio_guarded (num_visits num_pizzerias : Z) :
  exists ratio : R,
    compute_ratio num_visits num_pizzerias = Ok ratio /\
    ((0 < num_pizzerias)%Z ->
     ratio = (IZR num_visits / IZR num_pizzerias)%R /\
     py_truediv num_visits num_pizzerias = Ok ratio) /\
    (num_pizzerias = 0%Z ->
     ratio = 0%R /\
     py_truediv num_visits num_pizzerias = Raise ZeroDivisionError) /\
    ((0 <= num_visits)%Z -> (0 <= num_pizzerias)%Z -> (0 <= ratio)%R).
Proof.
  unfold compute_ratio, py_truediv. case_bool_decide as Hpos.
  - rewrite bool_decide_false by lia. eexists. split; [reflexivity|].
    split; [done|]. split; [lia|]. intros Hv _.
    apply Rmult_le_pos; [by apply IZR_le|].
    left. apply Rinv_0_lt_compat. by apply IZR_lt.
  - exists 0%R. split; [reflexivity|]. split; [lia|].
    split; [|intros; lra]. intros ->. by rewrite bool_decide_true.
Qed.

(** ** Scoring and the window *)

Section CycleRuns.

Variable STL : list R -> nat -> bool -> stl_outcome.

(** C10. The detector does not change the history it is given: after
    the call the list holds what it held before, and so does every
    other object that existed; the array STL works on is a new object
    holding a copy. Within a cycle the window is therefore what the
    append-then-evict step left. *)
Theorem detect_anomaly_leaves_history (ratios : loc) (threshold : R)
    (w : world) (history : list R) :
  heap w !! ratios = Some history ->
  (exists (v : bool * R) (w' : world),
     detect_anomaly STL ratios threshold w = (Ok v, w') /\
     heap w' !! ratios = Some history /\
     (forall l : loc, is_Some (heap w !! l) -> heap w' !! l = heap w !! l) /\
     (24 <= length history ->
      exists series : loc,
        np_array ratios w = (Ok series, set_obj series history w) /\
        series <> ratios /\ heap w !! series = None)) /\
  (length history <= 72 ->
   forall num_pizzerias num_visits : Z,
     exists (ratio : R) (w1 : world) (out : R * bool * R) (w2 : world),
       compute_ratio num_visits num_pizzerias = Ok ratio /\
       update_window ratios ratio w = (Ok tt, w1) /\
       cycle STL ratios num_pizzerias num_visits w = (Ok out, w2) /\
       out.1.1 = ratio /\
       heap w2 !! ratios = heap w1 !! ratios /\
       heap w2 !! ratios = Some (slice_last 72 (history ++ [ratio]))).
Proof.
  intros Hh. pose proof (deref_lookup _ _ _ Hh) as Hd. split.
  - eexists _, _. split; [apply detect_anomaly_run|].
    split; [rewrite world_of_frame; by eauto|].
    split; [intros l Hl; by apply world_of_frame|].
    intros _. exists (fresh (dom (heap w))).
    split; [unfold np_array, alloc; by rewrite Hd|].
    split; [|apply fresh_loc_not_in].
    intros Heq. pose proof (fresh_loc_not_in w) as Hf.
    rewrite Heq, Hh in Hf. discriminate.
  - intros Hlen num_pizzerias num_visits.
    destruct (compute_ratio_total num_visits num_pizzerias) as (ratio & Hr).
    destruct (update_window_run ratios ratio w) as (w1 & Hrun & Hheap & _).
    { by rewrite Hd. }
    rewrite Hd in Hheap.
    assert (Hw1 : heap w1 !! ratios = Some (slice_last 72 (history ++ [ratio]))).
    { rewrite Hheap. apply lookup_insert_eq. }
    exists ratio, w1. eexists _, _. split; [exact Hr|]. split; [exact Hrun|].
    split.
    { unfold cycle, lift, mbind, M_bind, mret, M_ret. rewrite Hr, Hrun.
      rewrite detect_anomaly_run. reflexivity. }
    split; [reflexivity|].
    rewrite world_of_frame by (rewrite Hw1; eauto). done.
Qed.

End CycleRuns.

(** ** Cancellation *)

Lemma exec_cons (a : action) (sched : list action) (s : mstate) :
  exec (a :: sched) s = exec sched (do_action s a).
Proof. reflexivity. Qed.

Lemma exec_snoc (sched : list action) (a : action) (s : mstate) :
  exec (sched ++ [a]) s = do_action (exec sched s) a.
Proof. unfold exec. by rewrite foldl_app. Qed.

(** Nothing clears the flag. *)
Lemma do_action_flag (s : mstate) (a : action) :
  should_exit s = true -> should_exit (do_action s a) = true.
Proof.
  intros Hflag. destruct a; [|reflexivity].
  destruct s as [p flag]. simpl in Hflag. subst flag.
  unfold do_action, prog_step. simpl.
  destruct p as [|st|i|i|]; simpl; try reflexivity.
  - by destruct (next_stmt st).
  - by case_bool_decide.
Qed.

Lemma exec_flag (sched : list action) (s : mstate) :
  should_exit s = true -> should_exit (exec sched s) = true.
Proof.
  revert s. induction sched as [|a rest IH]; intros s Hflag; [done|].
  rewrite exec_cons. apply IH. by apply do_action_flag.
Qed.

(** The loop body is entered only by the [while] test reading a clear
    flag. *)
Lemma begins_cycle_polled (s : mstate) (a : action) :
  begins_cycle s (do_action s a) ->
  a = Tick /\ at_pc s = WhileTest /\ should_exit s = false /\
  at_pc (do_action s a) = InCycle LoadKnown.
Proof.
  destruct s as [p flag]. unfold begins_cycle, in_cycle.
  destruct a; simpl; [|intros [-> [=]]].
  unfold prog_step. simpl.
  destruct p as [|st|i|i|]; simpl; intros [Hpre Hpost]; try done.
  - by destruct flag.
  - case_bool_decide; [destruct flag|]; done.
Qed.

(** A second of sleep is entered only by the sleep loop's test reading
    a clear flag. *)
Lemma sleep_polled (s : mstate) (a : action) (i : nat) :
  at_pc (do_action s a) = Sleeping i ->
  at_pc s <> Sleeping i ->
  a = Tick /\ at_pc s = ForTest i /\ i < 3600 /\ should_exit s = false.
Proof.
  destruct s as [p flag]. destruct a; simpl; [|done].
  unfold prog_step. simpl.
  destruct p as [|st|j|j|]; simpl; try done.
  - by destruct flag.
  - by destruct (next_stmt st).
  - case_bool_decide; [destruct flag|]; try done.
    simpl. by intros [= ->].
Qed.

Lemma exec_signals (sched : list action) (s : mstate) :
  ticks sched = 0 -> at_pc (exec sched s) = at_pc s.
Proof.
  revert s. induction sched as [|[|] rest IH]; intros s Hticks; try done.
  rewrite exec_cons, IH; done.
Qed.

Lemma next_stmt_remaining (st : stmt) :
  match next_stmt st with
  | Some st' => remaining st = S (remaining st')
  | None => remaining st = 1
  end.
Proof. by destruct st. Qed.

(** A started cycle runs each of its statements, whatever signals are
    delivered on the way. *)
Lemma cycle_runs_statements (sched : list action) :
  forall (s : mstate) (st : stmt),
    at_pc s = InCycle st ->
    ticks sched < remaining st ->
    exists st' : stmt,
      at_pc (exec sched s) = InCycle st' /\
      remaining st' = remaining st - ticks sched.
Proof.
  induction sched as [|[|] rest IH]; intros s st Hpc Hticks.
  - exists st. simpl. split; [done|lia].
  - rewrite exec_cons. simpl in Hticks.
    pose proof (next_stmt_remaining st) as Hnext.
    destruct s as [p flag]. simpl in Hpc. subst p.
    unfold do_action, prog_step. simpl.
    destruct (next_stmt st) as [st1|]; [|lia]. simpl.
    destruct (IH (MState (InCycle st1) flag) st1) as (st' & Hst' & Hrem);
      [done|lia|].
    exists st'. split; [done|]. simpl. lia.
  - rewrite exec_cons. simpl in Hticks.
    destruct (IH (handle_termination_signal s) st) as (st' & Hst' & Hrem);
      [done|done|].
    by exists st'.
Qed.

Lemma cycle_completes (sched : list action) :
  forall (s : mstate) (st : stmt),
    at_pc s = InCycle st ->
    ticks sched = remaining st ->
    at_pc (exec sched s) = ForTest 0.
Proof.
  induction sched as [|[|] rest IH]; intros s st Hpc Hticks.
  - destruct st; discriminate.
  - rewrite exec_cons. simpl in Hticks.
    pose proof (next_stmt_remaining st) as Hnext.
    destruct s as [p flag]. simpl in Hpc. subst p.
    unfold do_action, prog_step. simpl.
    destruct (next_stmt st) as [st1|]; simpl.
    + apply (IH _ st1); [done|lia].
    + rewrite exec_signals; [done|lia].
  - rewrite exec_cons. by apply (IH _ st).
Qed.

(** With the flag set, the sleep loop's test leaves the loop. *)
Lemma tick_for_test_flag (i : nat) :
  do_action (MState (ForTest i) true) Tick = MState WhileTest true.
Proof. unfold do_action, prog_step. simpl. by case_bool_decide. Qed.

(** With the flag set and no cycle under way, [main] reaches its exit
    in at most three steps. *)
Lemma exits_after_flag (s : mstate) :
  should_exit s = true -> in_cycle s = false ->
  at_pc (exec [Tick; Tick; Tick] s) = Exited.
Proof.
  destruct s as [p flag]. intros Hflag Hout. simpl in Hflag, Hout.
  subst flag. destruct p as [|st|i|i|]; try done.
  - by rewrite exec_cons, tick_for_test_flag.
  - rewrite exec_cons.
    change (do_action (MState (Sleeping i) true) Tick)
      with (MState (ForTest (S i)) true).
    by rewrite exec_cons, tick_for_test_flag.
Qed.

(** C7. Cancellation is cooperative. The loop body is entered only by
    the [while] test reading a clear flag, and each second of sleep
    only by the sleep loop's test reading a clear flag, the test coming
    round again after that second. A delivered signal sets the flag and
    nothing clears it. Once it is set, the sleep loop's next test
    leaves the loop, no step enters the loop body any more, and [main]
    reaches its exit. A cycle that has started runs every remaining
    statement and arrives at the sleep loop, whatever signals are
    delivered meanwhile. *)
Theorem cancellation_cooperative :
  (forall (s : mstate) (a : action),
     begins_cycle s (do_action s a) ->
     a = Tick /\ at_pc s = WhileTest /\ should_exit s = false /\
     at_pc (do_action s a) = InCycle LoadKnown) /\
  (forall (s : mstate) (a : action) (i : nat),
     at_pc (do_action s a) = Sleeping i -> at_pc s <> Sleeping i ->
     a = Tick /\ at_pc s = ForTest i /\ i < 3600 /\ should_exit s = false) /\
  (forall (s : mstate) (i : nat),
     at_pc s = Sleeping i -> at_pc (do_action s Tick) = ForTest (S i)) /\
  (forall s : mstate,
     should_exit (do_action s Signal) = true /\
     at_pc (do_action s Signal) = at_pc s) /\
  (forall (s : mstate) (sched : list action),
     should_exit s = true -> should_exit (exec sched s) = true) /\
  (forall (s : mstate) (i : nat),
     should_exit s = true ->
     (at_pc s = ForTest i -> at_pc (do_action s Tick) = WhileTest) /\
     (at_pc s = Sleeping i -> at_pc (exec [Tick; Tick] s) = WhileTest)) /\
  (forall (s : mstate) (sched : list action) (a : action),
     should_exit s = true ->
     ~ begins_cycle (exec sched s) (do_action (exec sched s) a)) /\
  (forall s : mstate,
     should_exit s = true -> in_cycle s = false ->
     at_pc (exec [Tick; Tick; Tick] s) = Exited) /\
  (forall (s : mstate) (st : stmt) (sched : list action),
     at_pc s = InCycle st ->
     (ticks sched < remaining st ->
      exists st' : stmt,
        at_pc (exec sched s) = InCycle st' /\
        remaining st' = remaining st - ticks sched) /\
     (ticks sched = remaining st -> at_pc (exec sched s) = ForTest 0)).
Proof.
  split; [exact begins_cycle_polled|].
  split; [exact sleep_polled|].
  split.
  { intros [p flag] i Hpc. simpl in Hpc. by subst p. }
  split; [done|].
  split; [intros s sched; apply exec_flag|].
  split.
  { intros [p flag] i Hflag. simpl in Hflag. subst flag. split.
    - intros Hpc. simpl in Hpc. subst p. by rewrite tick_for_test_flag.
    - intros Hpc. simpl in Hpc. subst p. rewrite exec_cons.
      change (do_action (MState (Sleeping i) true) Tick)
        with (MState (ForTest (S i)) true).
      by rewrite exec_cons, tick_for_test_flag. }
  split.
  { intros s sched a Hflag Hbegin.
    apply begins_cycle_polled in Hbegin as (_ & _ & Hclear & _).
    rewrite (exec_flag sched s Hflag) in Hclear. discriminate. }
  split; [exact exits_after_flag|].
  intros s st sched Hpc. split.
  - by apply cycle_runs_statements.
  - by apply cycle_completes.
Qed.

(** * The properties on sample inputs *)

Lemma Rsum_nonneg (xs : list R) :
  Forall (fun x => (0 <= x)%R) xs -> (0 <= Rsum xs)%R.
Proof.
  induction 1 as [|x xs Hx _ IH]; simpl; [lra|]. fold (Rsum xs). lra.
Qed.

Lemma Rsum_pos (xs : list R) (x : R) :
  Forall (fun y => (0 <= y)%R) xs -> x ∈ xs -> (0 < x)%R -> (0 < Rsum xs)%R.
Proof.
  intros Hall Hin Hx. induction Hall as [|y ys Hy Hys IH]; [by inv Hin|].
  simpl. fold (Rsum ys). pose proof (Rsum_nonneg ys Hys).
  apply elem_of_cons in Hin as [->|Hin]; [lra|].
  specialize (IH Hin). lra.
Qed.

(** A sequence with an entry off its mean has a positive standard
    deviation. *)
Lemma np_std_pos (xs : list R) (x : R) :
  x ∈ xs -> x <> np_mean xs -> (0 < np_std xs)%R.
Proof.
  intros Hin Hne. rewrite np_std_population.
  apply sqrt_lt_R0. unfold population_variance.
  apply Rdiv_lt_0_compat.
  - apply (Rsum_pos _ ((x - np_mean xs) * (x - np_mean xs))%R).
    + apply Forall_map, Forall_forall. intros y _.
      apply (Rle_0_sqr (y - np_mean xs)).
    + apply (list_elem_of_fmap_2 (fun x => (x - np_mean xs) * (x - np_mean xs))%R).
      exact Hin.
    + apply (Rsqr_pos_lt (x - np_mean xs)). lra.
  - apply lt_0_INR. destruct xs; [by inv Hin|simpl; lia].
Qed.

Lemma spike_resid_mean : np_mean spike_resid = 1%R.
Proof.
  unfold np_mean, spike_resid.
  change (length (replicate 23 0%R ++ [24%R])) with 24.
  rewrite INR_IZR_INZ. change (Z.of_nat 24) with 24%Z. simpl. lra.
Qed.

Lemma spike_resid_std : np_std spike_resid <> 0%R.
Proof.
  apply Rgt_not_eq, Rlt_gt, (np_std_pos spike_resid 0%R).
  - unfold spike_resid. simpl. apply list_elem_of_here.
  - rewrite spike_resid_mean. lra.
Qed.




(** A spike of 24 against a mean of 1: flagged. *)
Lemma spike_flagged :
  exists (score : R) (w' : world),
    detect_anomaly stl_spike 1%positive 3 (world_with (replicate 24 1%R))
    = (Ok (true, score), w') /\ (3 < score)%R.
Proof.
  pose proof spike_resid_std as Hstd.
  assert (Hbound : (np_std spike_resid * np_std spike_resid = 23)%R).
  { rewrite np_std_population. unfold population_std.
    rewrite sqrt_sqrt.
    - unfold population_variance. rewrite spike_resid_mean. unfold spike_resid.
      change (length (replicate 23 0%R ++ [24%R])) with 24.
      rewrite INR_IZR_INZ. change (Z.of_nat 24) with 24%Z. simpl. lra.
    - unfold population_variance. apply Rmult_le_pos.
      + apply Rsum_nonneg, Forall_map, Forall_forall. intros y _.
        apply (Rle_0_sqr (y - np_mean spike_resid)).
      + left. apply Rinv_0_lt_compat, lt_0_INR. simpl. lia. }
  pose proof (np_std_nonneg spike_resid) as Hnn.
  assert (Hlt : (3 < Rabs 24 / np_std spike_resid)%R).
  { rewrite Rabs_pos_eq by lra.
    apply (Rmult_lt_reg_r (np_std spike_resid)); [lra|].
    unfold Rdiv. rewrite Rmult_assoc, Rinv_l by exact Hstd.
    nra. }
  eexists _, _. split; [|exact Hlt].
  rewrite (detect_anomaly_scored stl_spike 1%positive 3
             (world_with (replicate 24 1%R)) spike_resid 24%R);
    [|vm_compute; lia|reflexivity|reflexivity|exact Hstd].
  by rewrite bool_decide_true.
Qed.

Lemma detect_anomaly_insufficient_data_witness :
  exists w' : world,
    detect_anomaly stl_spike 1%positive 3 (world_with (replicate 23 1%R))
    = (Ok (false, 0%R), w') /\
    w' = world_with (replicate 23 1%R) /\
    stl_calls w' = stl_calls (world_with (replicate 23 1%R)).
Proof.
  apply (detect_anomaly_insufficient_data stl_spike 1%positive 3
           (world_with (replicate 23 1%R)) (replicate 23 1%R)).
  - reflexivity.
  - simpl. lia.
Defined.

Lemma window_at_most_72_witness :
  exists w' : world,
    feed 1%positive (map INR (seq 0 100)) (world_with (replicate 72 1%R))
    = (Ok tt, w') /\
    heap w' !! 1%positive = Some (map INR (seq 28 72)).
Proof.
  destruct (window_at_most_72 1%positive (world_with (replicate 72 1%R))
              (replicate 72 1%R)) as (_ & Hfeed & _).
  - reflexivity.
  - simpl. lia.
  - destruct (Hfeed (map INR (seq 0 100))) as (w' & Hrun & Hw' & _ & Hlast).
    exists w'. split; [exact Hrun|].
    rewrite Hlast in Hw' by reflexivity. exact Hw'.
Defined.

Lemma detect_anomaly_never_raises_witness :
  exists w' : world,
    detect_anomaly stl_failing 1%positive 3 (world_with (replicate 24 1%R))
    = (Ok (false, 0%R), w') /\
    error_log w' = [LibraryError "LinAlgError"].
Proof.
  destruct (detect_anomaly_never_raises stl_failing 1%positive 3
              (world_with (replicate 24 1%R)) (replicate 24 1%R))
    as (_ & Hraise & _).
  - reflexivity.
  - simpl. lia.
  - apply (Hraise (LibraryError "LinAlgError")). reflexivity.
Defined.


Lemma detect_anomaly_consistent_witness :
  exists (is_anomaly : bool) (score : R) (w' : world),
    detect_anomaly stl_spike 1%positive 3 (world_with (replicate 24 1%R))
    = (Ok (is_anomaly, score), w') /\
    (is_anomaly = true <-> (3 < score)%R).
Proof.
  destruct (detect_anomaly_consistent stl_spike 1%positive 3
              (world_with (replicate 24 1%R)))
    as (b & score & w' & Hrun & Hflag & _).
  - lra.
  - by exists b, score, w'.
Defined.

Lemma detect_anomaly_leaves_history_witness :
  exists (v : bool * R) (w' : world),
    detect_anomaly stl_failing 1%positive 3 (world_with (replicate 24 1%R))
    = (Ok v, w') /\
    heap w' !! 1%positive = Some (replicate 24 1%R).
Proof.
  destruct (detect_anomaly_leaves_history stl_failing 1%positive 3
              (world_with (replicate 24 1%R)) (replicate 24 1%R))
    as ((v & w' & Hrun & Hkeep & _) & _).
  - reflexivity.
  - by exists v, w'.
Defined.

(** A signal delivered while the second statement of a cycle runs: the
    cycle finishes, the sleep loop is left at its first test and
    [main] exits. *)
Example signal_during_cycle :
  exec ([Tick; Tick; Signal] ++ replicate 10 Tick ++ [Tick; Tick])
       (MState WhileTest false)
  = MState Exited true.
Proof. vm_compute. reflexivity. Qed.

(** A signal delivered during the third second of sleep. *)
Example signal_during_sleep :
  exec [Signal; Tick; Tick; Tick] (MState (Sleeping 2) false)
  = MState Exited true.
Proof. vm_compute. reflexivity. Qed.

(** Without a signal the sleep loop runs its 3600 seconds and the next
    cycle begins. *)
Example full_sleep_then_next_cycle :
  exec (replicate (2 * 3600 + 2) Tick) (MState (ForTest 0) false)
  = MState (InCycle LoadKnown) false.
Proof. vm_compute. reflexivity. Qed.

Example slice_last_long : slice_last 3 [1; 2; 3; 4; 5] = [3; 4; 5].
Proof. reflexivity. Qed.

Example slice_last_whole : slice_last 72 [1; 2; 3] = [1; 2; 3].
Proof. reflexivity. Qed.

(** * Further properties *)

(** ** The file of known establishments *)

Lemma py_isspace_LF : py_isspace LF = true.
Proof. reflexivity. Qed.

Lemma py_isspace_CR : py_isspace CR = true.
Proof. reflexivity. Qed.

Lemma no_whitespace_cons (c : ascii) (s : string) :
  no_whitespace (String c s) = true ->
  py_isspace c = false /\ c <> LF /\ c <> CR /\ no_whitespace s = true.
Proof.
  simpl. intros [Hc Hs]%andb_true_iff. apply negb_true_iff in Hc.
  repeat split; try done; intros ->; by vm_compute in Hc.
Qed.

Lemma append_cons (c : ascii) (s t : string) :
  String c s +:+ t = String c (s +:+ t).
Proof. reflexivity. Qed.

Lemma append_assoc (s t u : string) : (s +:+ t) +:+ u = s +:+ t +:+ u.
Proof.
  induction s as [|c s IH]; [done|]. rewrite !append_cons. by rewrite IH.
Qed.

Lemma universal_newlines_written (os : platform) (s rest : string) :
  no_whitespace s = true ->
  universal_newlines (s +:+ linesep os +:+ rest)
  = s +:+ String LF (universal_newlines rest).
Proof.
  induction s as [|c s IH]; intros Hs.
  - by destruct os.
  - apply no_whitespace_cons in Hs as (_ & _ & Hcr & Hs).
    rewrite !append_cons. cbn [universal_newlines].
    rewrite bool_decide_false by done. f_equal. by apply IH.
Qed.

Lemma write_text_written (os : platform) (s : string) :
  no_whitespace s = true ->
  write_text os (s +:+ String LF EmptyString) = s +:+ linesep os.
Proof.
  induction s as [|c s IH]; intros Hs.
  - by destruct os.
  - apply no_whitespace_cons in Hs as (_ & Hlf & _ & Hs).
    rewrite !append_cons. cbn [write_text].
    rewrite bool_decide_false by done. f_equal. by apply IH.
Qed.

Lemma iter_lines_written (s rest : string) :
  no_whitespace s = true ->
  iter_lines (s +:+ String LF rest) = (s +:+ String LF EmptyString) :: iter_lines rest.
Proof.
  induction s as [|c s IH]; intros Hs.
  - done.
  - apply no_whitespace_cons in Hs as (_ & Hlf & _ & Hs).
    rewrite !append_cons. cbn [iter_lines].
    rewrite bool_decide_false by done. by rewrite IH.
Qed.

Lemma rstrip_written (s : string) :
  no_whitespace s = true -> rstrip (s +:+ String LF EmptyString) = s.
Proof.
  induction s as [|c s IH]; intros Hs; [done|].
  apply no_whitespace_cons in Hs as (Hc & _ & _ & Hs).
  rewrite append_cons. cbn [rstrip]. rewrite IH by done.
  destruct s; [by rewrite Hc|done].
Qed.

Lemma strip_written (s : string) :
  no_whitespace s = true -> strip (s +:+ String LF EmptyString) = s.
Proof.
  intros Hs. unfold strip. destruct s as [|c s]; [done|].
  pose proof (no_whitespace_cons _ _ Hs) as (Hc & _).
  rewrite append_cons. cbn [lstrip]. rewrite Hc. rewrite <- append_cons.
  by apply (rstrip_written (String c s)).
Qed.

Lemma read_written (os : platform) (order : list string) :
  Forall (fun pid => no_whitespace pid = true) order ->
  map strip (iter_lines (universal_newlines (written_ids os order))) = order.
Proof.
  induction 1 as [|pid rest Hpid _ IH]; [done|].
  cbn [written_ids].
  rewrite write_text_written, append_assoc by done.
  rewrite universal_newlines_written, iter_lines_written by done.
  cbn [map]. rewrite strip_written, IH by done. done.
Qed.

(** X9. What [save_known_pizzerias] writes, [load_known_pizzerias]
    reads back as the same set, in whatever order the set was written
    and on either newline convention, provided no id contains a
    whitespace character. *)
Theorem known_pizzerias_round_trip (os : platform) (order : list string)
    (f : text_file) (w : world) :
  Forall (fun pid => no_whitespace pid = true) order ->
  exists f' : text_file,
    save_known_pizzerias os (Ok tt) order f w = (Ok f', w) /\
    load_known_pizzerias f' w = (Ok (list_to_set order), w).
Proof.
  intros Hclean. exists (Text (written_ids os order)).
  split; [done|]. simpl. unfold mret, M_ret.
  by rewrite read_written.
Qed.

(** ** Fetching *)

Lemma dict_setitem_keys_in {V : Type} (d : list (Z * V)) (k : Z) (v : V) :
  k ∈ map fst d -> map fst (dict_setitem d k v) = map fst d.
Proof.
  induction d as [|[k' v'] rest IH]; simpl; intros Hin.
  - by apply elem_of_nil in Hin.
  - case_bool_decide as Hk; simpl; [done|].
    apply elem_of_cons in Hin as [->|Hin]; [done|]. by rewrite IH.
Qed.

Lemma dict_setitem_keys_new {V : Type} (d : list (Z * V)) (k : Z) (v : V) :
  k ∉ map fst d -> map fst (dict_setitem d k v) = map fst d ++ [k].
Proof.
  induction d as [|[k' v'] rest IH]; simpl; intros Hin; [done|].
  apply not_elem_of_cons in Hin as [Hne Hin].
  rewrite bool_decide_false by done. simpl. by rewrite IH.
Qed.

Lemma dict_setitem_NoDup {V : Type} (d : list (Z * V)) (k : Z) (v : V) :
  NoDup (map fst d) -> NoDup (map fst (dict_setitem d k v)).
Proof.
  intros Hd. destruct (decide (k ∈ map fst d)) as [Hin|Hin].
  - by rewrite dict_setitem_keys_in.
  - rewrite dict_setitem_keys_new by done.
    apply NoDup_app. split; [done|]. split; [|apply NoDup_singleton].
    intros x Hx Hx'. apply list_elem_of_singleton in Hx'. by subst x.
Qed.

Lemma dict_setitem_elem {V : Type} (d : list (Z * V)) (k k' : Z) (v v' : V) :
  NoDup (map fst d) ->
  (k', v') ∈ dict_setitem d k v <->
  (k' = k /\ v' = v) \/ (k' <> k /\ (k', v') ∈ d).
Proof.
  induction d as [|[k0 v0] rest IH]; simpl; intros Hd.
  - rewrite list_elem_of_singleton. split.
    + intros [= -> ->]. by left.
    + intros [[-> ->]|[_ Hin]]; [done|by apply elem_of_nil in Hin].
  - apply NoDup_cons in Hd as [Hk0 Hrest]. case_bool_decide as Hk.
    + subst k0. rewrite !elem_of_cons. split.
      * intros [[= -> ->]|Hin]; [by left|]. right.
        split; [|by right]. intros ->. apply Hk0.
        apply list_elem_of_fmap. by exists (k, v').
      * intros [[-> ->]|[Hne [[= -> ->]|Hin]]]; [by left|done|by right].
    + rewrite !elem_of_cons, IH by done. split.
      * intros [[= -> ->]|[[-> ->]|[Hne Hin]]].
        -- right. split; [done|by left].
        -- by left.
        -- right. split; [done|by right].
      * intros [[-> ->]|[Hne [[= -> ->]|Hin]]].
        -- right. by left.
        -- by left.
        -- right. right. by split.
Qed.

Lemma dict_setitem_keyed (d : list (Z * element)) (k : Z) (el : element) :
  keyed d -> el_id el = Some k -> keyed (dict_setitem d k el).
Proof.
  unfold keyed. intros Hd Hel.
  induction Hd as [|[k' v'] rest Hkv Hrest IH]; simpl.
  - by repeat constructor.
  - case_bool_decide as Hk; constructor; try done. simpl. by subst k'.
Qed.

Lemma last_with_id_cons (k : Z) (el : element) (rest : list element) :
  last_with_id k (el :: rest)
  = if decide (el_id el = Some k)
    then match last_with_id k rest with
         | Some v => Some v
         | None => Some el
         end
    else last_with_id k rest.
Proof.
  unfold last_with_id. rewrite filter_cons.
  destruct (decide _); [|done]. apply last_cons.
Qed.

(** What [collect_unique] leaves in the dict. *)
Lemma collect_unique_spec (els : list element) :
  forall d : list (Z * element),
    Forall (fun el => is_Some (el_id el)) els ->
    NoDup (map fst d) -> keyed d ->
    exists d' : list (Z * element),
      collect_unique els d = Ok d' /\
      NoDup (map fst d') /\ keyed d' /\
      forall (k : Z) (v : element),
        (k, v) ∈ d' <->
        last_with_id k els = Some v \/
        (last_with_id k els = None /\ (k, v) ∈ d).
Proof.
  induction els as [|el rest IH]; intros d Hids Hnd Hkeyed.
  - exists d. repeat split; try done.
    + intros Hin. by right.
    + by intros [[=]|[_ ?]].
  - apply Forall_cons in Hids as [[pid Hpid] Hids]. simpl.
    unfold getitem_id. rewrite Hpid.
    destruct (IH (dict_setitem d pid el)) as (d' & Hrun & Hnd' & Hk' & Hspec);
      [done|by apply dict_setitem_NoDup|by apply dict_setitem_keyed|].
    exists d'. split; [done|]. split; [done|]. split; [done|].
    intros k v. rewrite Hspec, last_with_id_cons, dict_setitem_elem by done.
    rewrite Hpid. destruct (decide (Some pid = Some k)) as [[= ->]|Hne].
    + clear. destruct (last_with_id k rest) as [v0|];
        intuition (try congruence).
    + assert (k <> pid) by congruence. clear -H. intuition (try congruence).
Qed.

Lemma describe_all_keyed (d : list (Z * element)) :
  keyed d -> describe_all (dict_values d) = Ok (map as_pizzeria d).
Proof.
  unfold keyed, dict_values. induction 1 as [|[k v] rest Hkv _ IH]; [done|].
  simpl in *. unfold describe, getitem_id. rewrite Hkv, IH. done.
Qed.

Lemma collect_unique_raise (els : list element) :
  Exists (fun el => el_id el = None) els ->
  forall d : list (Z * element), collect_unique els d = Raise KeyError.
Proof.
  induction els as [|el rest IH]; intros Hex d; [by inv Hex|].
  simpl. unfold getitem_id.
  destruct (el_id el) as [pid|] eqn:Hid; [|done].
  apply IH. apply Exists_cons in Hex as [Hnone|Hex]; [congruence|done].
Qed.

Lemma ids_present_or_missing (els : list element) :
  Forall (fun el => is_Some (el_id el)) els \/
  Exists (fun el => el_id el = None) els.
Proof.
  induction els as [|el rest [IH|IH]].
  - left. constructor.
  - destruct (el_id el) as [pid|] eqn:Hid.
    + left. constructor; [by rewrite Hid|done].
    + right. by left.
  - right. by right.
Qed.

Lemma last_with_id_Some (k : Z) (els : list element) (v : element) :
  last_with_id k els = Some v -> v ∈ els /\ el_id v = Some k.
Proof.
  unfold last_with_id. intros [l' Hl]%last_Some.
  assert (Hin : v ∈ filter (fun el => el_id el = Some k) els).
  { rewrite Hl. apply elem_of_app. right. apply list_elem_of_here. }
  apply list_elem_of_filter in Hin. tauto.
Qed.

Lemma last_with_id_is_Some (k : Z) (els : list element) (el : element) :
  el ∈ els -> el_id el = Some k -> is_Some (last_with_id k els).
Proof.
  intros Hin Hid. unfold last_with_id. apply last_is_Some.
  intros Hnil.
  assert (Hin' : el ∈ filter (fun el => el_id el = Some k) els)
    by (by apply list_elem_of_filter).
  rewrite Hnil in Hin'. by apply elem_of_nil in Hin'.
Qed.

(** The result of the part after decoding, when every object has an id. *)
Lemma build_results_spec (els : list element) :
  Forall (fun el => is_Some (el_id el)) els ->
  exists d : list (Z * element),
    build_results (Some els) = Ok (map as_pizzeria d) /\
    NoDup (map fst d) /\
    forall (k : Z) (v : element),
      (k, v) ∈ d <-> last_with_id k els = Some v.
Proof.
  intros Hids.
  destruct (collect_unique_spec els [] Hids) as (d & Hrun & Hnd & Hkeyed & Hspec);
    [constructor|constructor|].
  exists d. unfold build_results. simpl. rewrite Hrun.
  split; [by apply describe_all_keyed|]. split; [done|].
  intros k v. rewrite Hspec. split; [|by left].
  intros [?|[_ Hin]]; [done|]. by apply elem_of_nil in Hin.
Qed.

Lemma pizzeria_id_as_pizzeria (d : list (Z * element)) :
  map pizzeria_id (map as_pizzeria d) = map fst d.
Proof. rewrite map_map. by apply map_ext. Qed.

(** X1. Whatever the response, the call returns a list, and no id
    occurs twice in it. *)
Theorem fetch_pizzerias_distinct_ids (response : http_outcome) (w : world) :
  exists (results : list pizzeria) (w' : world),
    fetch_pizzerias response w = (Ok results, w') /\
    NoDup (map pizzeria_id results).
Proof.
  destruct response as [e|e|[els|]]; simpl;
    try (eexists _, _; split; [reflexivity|constructor]).
  unfold try_except.
  destruct (ids_present_or_missing els) as [Hids|Hmiss].
  - destruct (build_results_spec els Hids) as (d & Hrun & Hnd & _).
    rewrite Hrun. eexists _, _. split; [reflexivity|].
    by rewrite pizzeria_id_as_pizzeria.
  - unfold build_results. simpl. rewrite collect_unique_raise by done.
    eexists _, _. split; [reflexivity|constructor].
Qed.

(** X2. When every object carries an id, nothing is logged; an entry
    is returned exactly for the last object carrying each id, built
    from that object; and there are as many entries as distinct ids. *)
Theorem fetch_pizzerias_last_wins (els : list element) (w : world) :
  Forall (fun el => is_Some (el_id el)) els ->
  exists results : list pizzeria,
    fetch_pizzerias (JsonObject (Some els)) w = (Ok results, w) /\
    (forall p : pizzeria,
       p ∈ results <->
       exists el : element,
         last_with_id (pizzeria_id p) els = Some el /\
         p = (pizzeria_id p, el_lat el, el_lon el, element_name el)) /\
    length results = size (list_to_set (omap el_id els) : gset Z).
Proof.
  intros Hids. destruct (build_results_spec els Hids) as (d & Hrun & Hnd & Hspec).
  exists (map as_pizzeria d). simpl. unfold try_except. rewrite Hrun.
  split; [done|]. split.
  - intros p. rewrite list_elem_of_fmap. split.
    + intros ([k v] & -> & Hin). exists v. split; [|done].
      by apply Hspec.
    + intros (el & Hlast & Hp). exists (pizzeria_id p, el).
      split; [done|]. by apply Hspec.
  - rewrite length_map, <- (length_map fst d).
    rewrite <- (size_list_to_set (C := gset Z)) by done. f_equal.
    apply set_eq. intros k. rewrite !elem_of_list_to_set.
    rewrite list_elem_of_fmap, list_elem_of_omap. split.
    + intros ([k' v] & -> & Hin). apply Hspec in Hin.
      apply last_with_id_Some in Hin as [? ?]. by exists v.
    + intros (el & Hin & Hid).
      destruct (last_with_id_is_Some k els el Hin Hid) as [v Hv].
      exists (k, v). split; [done|]. by apply Hspec.
Qed.

(** X3. One object without an id discards the whole answer: the call
    returns the empty list and logs the [KeyError]; so do a failed
    request and an undecodable body, with their own exception. *)
Theorem fetch_pizzerias_failure (w : world) :
  (forall els : list element,
     Exists (fun el => el_id el = None) els ->
     fetch_pizzerias (JsonObject (Some els)) w = (Ok [], logged KeyError w)) /\
  (forall e : exn,
     fetch_pizzerias (RequestFailed e) w = (Ok [], logged e w) /\
     fetch_pizzerias (JsonInvalid e) w = (Ok [], logged e w)) /\
  fetch_pizzerias (JsonObject None) w = (Ok [], w).
Proof.
  split; [|done]. intros els Hmiss. simpl. unfold try_except, build_results.
  simpl. by rewrite collect_unique_raise.
Qed.

Lemma filter_not_in_nil (l : list Z) :
  filter (fun j => j ∉ ([] : list Z)) l = l.
Proof.
  induction l as [|x l IH]; [done|].
  rewrite filter_cons_True by apply not_elem_of_nil. by rewrite IH.
Qed.

Lemma collect_unique_keys (els : list element) :
  forall d d' : list (Z * element),
    collect_unique els d = Ok d' ->
    map fst d'
    = map fst d ++ filter (fun j => j ∉ map fst d)
                     (first_occurrences (omap el_id els)).
Proof.
  induction els as [|el rest IH]; intros d d' Hrun.
  - injection Hrun as <-. simpl. by rewrite app_nil_r.
  - simpl in Hrun. unfold getitem_id in Hrun.
    destruct (el_id el) as [k|] eqn:Hid; [|done].
    apply IH in Hrun. rewrite Hrun. simpl. rewrite Hid. simpl.
    rewrite filter_cons. destruct (decide (k ∉ map fst d)) as [Hnew|Hold].
    + rewrite dict_setitem_keys_new by done. rewrite <- app_assoc. simpl.
      do 2 f_equal. rewrite list_filter_filter. apply list_filter_iff.
      intros j. rewrite elem_of_app, list_elem_of_singleton. tauto.
    + apply dec_stable in Hold.
      rewrite dict_setitem_keys_in by done. f_equal.
      rewrite list_filter_filter. apply list_filter_iff.
      intros j. split; [|tauto]. intros Hj. split; [done|]. by intros ->.
Qed.

(** X4. The entries come in the order in which their ids first occur
    in the answer. *)
Theorem fetch_pizzerias_order (els : list element) (w : world) :
  Forall (fun el => is_Some (el_id el)) els ->
  exists results : list pizzeria,
    fetch_pizzerias (JsonObject (Some els)) w = (Ok results, w) /\
    map pizzeria_id results = first_occurrences (omap el_id els).
Proof.
  intros Hids.
  destruct (collect_unique_spec els [] Hids) as (d & Hrun & _ & Hkeyed & _);
    [constructor|constructor|].
  exists (map as_pizzeria d). simpl. unfold try_except, build_results. simpl.
  rewrite Hrun, describe_all_keyed by done. split; [done|].
  rewrite pizzeria_id_as_pizzeria, (collect_unique_keys els [] d Hrun).
  simpl. apply filter_not_in_nil.
Qed.

(** ** The simulated visits *)

Lemma foldl_add_bounds (xs : list Z) :
  Forall (fun x => 3 <= x <= 15)%Z xs ->
  forall acc : Z,
    (acc + 3 * Z.of_nat (length xs) <= foldl Z.add acc xs
     <= acc + 15 * Z.of_nat (length xs))%Z.
Proof.
  induction 1 as [|x xs Hx _ IH]; intros acc; simpl; [lia|].
  specialize (IH (acc + x)%Z). lia.
Qed.

Lemma simulate_visits_between (draws : nat -> Z) (num_pizzerias : Z) :
  (forall k : nat, 3 <= draws k <= 15)%Z ->
  (3 * Z.max 0 num_pizzerias <= simulate_visits draws num_pizzerias
   <= 15 * Z.max 0 num_pizzerias)%Z.
Proof.
  intros Hdraws. unfold simulate_visits.
  pose proof (foldl_add_bounds
                (map draws (seq 0 (Z.to_nat num_pizzerias)))) as Hb.
  rewrite length_map, length_seq in Hb.
  specialize (Hb ltac:(apply Forall_map, Forall_forall; intros; apply Hdraws) 0%Z).
  lia.
Qed.

(** X5. With every draw between 3 and 15, the simulated total lies
    between 3 and 15 times the number of establishments, and is 0 when
    there is none or the count is negative. *)
Theorem simulate_visits_bounds (draws : nat -> Z) (num_pizzerias : Z) :
  (forall k : nat, 3 <= draws k <= 15)%Z ->
  (3 * Z.max 0 num_pizzerias <= simulate_visits draws num_pizzerias
   <= 15 * Z.max 0 num_pizzerias)%Z /\
  ((num_pizzerias <= 0)%Z -> simulate_visits draws num_pizzerias = 0%Z).
Proof.
  intros Hdraws.
  pose proof (simulate_visits_between draws num_pizzerias Hdraws) as Hb.
  split; [exact Hb|]. lia.
Qed.

(** X6. The ratio [main] computes from the simulated visits is 0.0
    when nothing was fetched and lies between 3 and 15 otherwise. *)
Theorem simulated_ratio_range (draws : nat -> Z) (num_pizzerias : Z) :
  (forall k : nat, 3 <= draws k <= 15)%Z ->
  exists ratio : R,
    compute_ratio (simulate_visits draws num_pizzerias) num_pizzerias
    = Ok ratio /\
    ((0 < num_pizzerias)%Z -> (3 <= ratio <= 15)%R) /\
    ((num_pizzerias <= 0)%Z -> ratio = 0%R).
Proof.
  intros Hdraws.
  pose proof (simulate_visits_between draws num_pizzerias Hdraws) as Hb.
  unfold compute_ratio, py_truediv. case_bool_decide as Hpos.
  - rewrite bool_decide_false by lia. eexists. split; [reflexivity|].
    split; [|lia]. intros _.
    assert (Hn : (0 < IZR num_pizzerias)%R) by (by apply IZR_lt).
    assert (Hlo : (3 * IZR num_pizzerias
                   <= IZR (simulate_visits draws num_pizzerias))%R).
    { rewrite <- mult_IZR. apply IZR_le. lia. }
    assert (Hhi : (IZR (simulate_visits draws num_pizzerias)
                   <= 15 * IZR num_pizzerias)%R).
    { rewrite <- mult_IZR. apply IZR_le. lia. }
    split.
    + apply (Rmult_le_reg_r (IZR num_pizzerias)); [done|].
      unfold Rdiv. rewrite Rmult_assoc, Rinv_l by lra. lra.
    + apply (Rmult_le_reg_r (IZR num_pizzerias)); [done|].
      unfold Rdiv. rewrite Rmult_assoc, Rinv_l by lra. lra.
  - exists 0%R. split; [done|]. split; [lia|done].
Qed.

(** ** Consecutive cycles *)

Section CyclesRuns.

Variable STL : list R -> nat -> bool -> stl_outcome.

(** One cycle, once the ratio is known. *)
Lemma cycle_run (ratios_history : loc) (num_pizzerias num_visits : Z)
    (w : world) (window : list R) :
  heap w !! ratios_history = Some window ->
  length window <= 72 ->
  exists (ratio : R) (w1 : world),
    compute_ratio num_visits num_pizzerias = Ok ratio /\
    update_window ratios_history ratio w = (Ok tt, w1) /\
    heap w1 !! ratios_history = Some (slice_last 72 (window ++ [ratio])) /\
    stl_calls w1 = stl_calls w /\ error_log w1 = error_log w /\
    cycle STL ratios_history num_pizzerias num_visits w
    = (Ok (ratio,
           (verdict_of 3 (path_of STL (deref ratios_history w1))).1,
           (verdict_of 3 (path_of STL (deref ratios_history w1))).2),
       world_of STL (deref ratios_history w1) w1
         (path_of STL (deref ratios_history w1))).
Proof.
  intros Hw Hlen. pose proof (deref_lookup _ _ _ Hw) as Hd.
  destruct (compute_ratio_total num_visits num_pizzerias) as (ratio & Hr).
  destruct (update_window_run ratios_history ratio w)
    as (w1 & Hrun & Hheap & Hcalls & Hlog); [by rewrite Hd|].
  rewrite Hd in Hheap.
  exists ratio, w1. split; [done|]. split; [done|].
  split; [rewrite Hheap; apply lookup_insert_eq|]. split; [done|].
  split; [done|].
  unfold cycle, lift, mbind, M_bind, mret, M_ret.
  rewrite Hr, Hrun, detect_anomaly_run. done.
Qed.

(** X7. While the window has not reached 24 entries, every cycle
    reports no anomaly with score 0.0, STL is not called and nothing
    is logged. *)
Theorem warm_up_cycles (ratios_history : loc) (counts : list (Z * Z)) :
  forall (w : world) (window : list R),
    heap w !! ratios_history = Some window ->
    length window + length counts < 24 ->
    exists (outs : list (R * bool * R)) (w' : world) (window' : list R),
      run_cycles STL ratios_history counts w = (Ok outs, w') /\
      length outs = length counts /\
      Forall (fun out => out.1.2 = false /\ out.2 = 0%R) outs /\
      stl_calls w' = stl_calls w /\
      error_log w' = error_log w /\
      heap w' !! ratios_history = Some window' /\
      window' = window ++ map (fun out => out.1.1) outs.
Proof.
  induction counts as [|[np nv] rest IH]; intros w window Hw Hlen.
  - exists [], w, window. simpl. rewrite app_nil_r. by repeat split.
  - simpl in Hlen.
    destruct (cycle_run ratios_history np nv w window Hw)
      as (ratio & w1 & Hr & Hup & Hw1 & Hcalls & Hlog & Hcycle); [lia|].
    rewrite (deref_lookup _ _ _ Hw1) in Hcycle.
    rewrite slice_last_short in Hw1, Hcycle
      by (rewrite length_app; simpl; lia).
    unfold path_of in Hcycle.
    rewrite bool_decide_true in Hcycle by (rewrite length_app; simpl; lia).
    simpl in Hcycle.
    destruct (IH w1 (window ++ [ratio])) as (outs & w' & window' & Hrun & Hn & Hall & Hc & Hl & Hw' & Hwin);
      [done|rewrite length_app; simpl; lia|].
    exists ((ratio, false, 0%R) :: outs), w', window'.
    split.
    { simpl. unfold mbind, M_bind, mret, M_ret. rewrite Hcycle, Hrun. done. }
    split; [simpl; lia|]. split; [by constructor|].
    split; [congruence|]. split; [congruence|]. split; [done|].
    rewrite Hwin, <- app_assoc. done.
Qed.

(** X8. From 23 entries on, each cycle hands STL, once, a copy of the
    updated window: between 24 and 72 entries, the new ratio last. *)
Theorem cycle_calls_stl_on_window (ratios_history : loc)
    (num_pizzerias num_visits : Z) (w : world) (window : list R) :
  heap w !! ratios_history = Some window ->
  23 <= length window <= 72 ->
  exists (ratio : R) (out : R * bool * R) (w' : world) (series : list R),
    compute_ratio num_visits num_pizzerias = Ok ratio /\
    cycle STL ratios_history num_pizzerias num_visits w = (Ok out, w') /\
    out.1.1 = ratio /\
    stl_calls w' = stl_calls w ++ [series] /\
    series = slice_last 72 (window ++ [ratio]) /\
    heap w' !! ratios_history = Some series /\
    last series = Some ratio /\
    24 <= length series <= 72.
Proof.
  intros Hw Hlen.
  destruct (cycle_run ratios_history num_pizzerias num_visits w window Hw)
    as (ratio & w1 & Hr & Hup & Hw1 & Hcalls & Hlog & Hcycle); [lia|].
  pose proof (deref_lookup _ _ _ Hw1) as Hd1. rewrite Hd1 in Hcycle.
  set (series := slice_last 72 (window ++ [ratio])) in *.
  assert (Hseries : 24 <= length series <= 72).
  { unfold series, slice_last. rewrite length_drop, length_app. simpl. lia. }
  exists ratio. eexists _, _, series. split; [done|]. split; [exact Hcycle|].
  split; [done|].
  assert (Hpath : stl_calls (world_of STL series w1 (path_of STL series))
                  = stl_calls w ++ [series]).
  { unfold path_of. rewrite bool_decide_false by lia. rewrite <- Hcalls.
    destruct (stl_resid _) as [resid|e]; [|done].
    destruct (last resid); [|done]. by case_bool_decide. }
  split; [exact Hpath|]. split; [done|].
  split; [rewrite world_of_frame; by eauto|]. split; [|done].
  unfold series, slice_last.
  rewrite drop_app_le by (rewrite length_app; simpl; lia).
  apply last_snoc.
Qed.

End CyclesRuns.

(** ** Ids as text *)

Lemma pretty_N_char_no_space (x : N) : py_isspace (pretty_N_char x) = false.
Proof. unfold pretty_N_char. by repeat case_match. Qed.

Lemma pretty_N_go_no_whitespace (x : N) :
  forall s : string,
    no_whitespace s = true -> no_whitespace (pretty_N_go x s) = true.
Proof.
  induction (N.lt_wf_0 x) as [x _ IH]; intros s Hs.
  assert (x = 0 \/ 0 < x)%N as [->|Hpos] by lia.
  - by rewrite pretty_N_go_0.
  - rewrite pretty_N_go_step by done. apply IH.
    + by apply N.div_lt.
    + simpl. by rewrite pretty_N_char_no_space.
Qed.

Lemma pretty_N_no_whitespace (x : N) : no_whitespace (pretty x) = true.
Proof.
  unfold pretty, pretty_N. case_decide; [done|].
  by apply pretty_N_go_no_whitespace.
Qed.

(** The decimal text of an integer has no whitespace in it. *)
Lemma pretty_Z_no_whitespace (z : Z) : no_whitespace (pretty z) = true.
Proof.
  destruct z as [|p|p]; [done| |].
  - apply (pretty_N_no_whitespace (Npos p)).
  - change (pretty (Z.neg p)) with ("-" +:+ pretty (N.pos p)).
    rewrite append_cons. simpl.
    apply (pretty_N_no_whitespace (Npos p)).
Qed.

Lemma ids_of_no_whitespace (ps : list pizzeria) (order : list string) :
  list_to_set order = ids_of ps ->
  Forall (fun pid => no_whitespace pid = true) order.
Proof.
  intros Horder. apply Forall_forall. intros pid Hpid.
  assert (Hin : pid ∈ ids_of ps).
  { rewrite <- Horder. by apply elem_of_list_to_set. }
  unfold ids_of in Hin. apply elem_of_list_to_set in Hin.
  apply list_elem_of_fmap in Hin as (p & -> & _).
  apply pretty_Z_no_whitespace.
Qed.

(** ** One iteration *)

Lemma load_known_pizzerias_run (f : text_file) (w : world) :
  exists (known : gset string) (w' : world),
    load_known_pizzerias f w = (Ok known, w') /\
    heap w' = heap w /\ stl_calls w' = stl_calls w /\
    (forall content : string, f = Text content ->
       known = list_to_set (map strip (iter_lines (universal_newlines content)))) /\
    (f = Absent -> known = ∅).
Proof.
  destruct f as [|e|content]; simpl; eexists _, _;
    (split; [reflexivity|]); repeat split; try done; by intros ? [= <-].
Qed.

Lemma fetch_pizzerias_run (response : http_outcome) (w : world) :
  exists (results : list pizzeria) (w' : world),
    fetch_pizzerias response w = (Ok results, w') /\
    heap w' = heap w /\ stl_calls w' = stl_calls w.
Proof.
  destruct response as [e|e|elements]; simpl;
    try (by eexists _, _).
  unfold try_except. destruct (build_results elements); by eexists _, _.
Qed.

Lemma list_to_set_empty_inv (l : list string) :
  list_to_set l = (∅ : gset string) -> l = [].
Proof.
  destruct l as [|x l]; [done|]. intros Hl.
  assert (Hx : x ∈ (∅ : gset string)).
  { rewrite <- Hl. apply elem_of_list_to_set, list_elem_of_here. }
  by apply elem_of_empty in Hx.
Qed.

Section IterationRuns.

Variable STL : list R -> nat -> bool -> stl_outcome.
Variable iter_order : gset string -> list string.
Hypothesis iter_order_enumerates :
  forall X : gset string, list_to_set (iter_order X) = X.

(** One iteration that can write its file always completes. *)
Lemma iteration_run (os : platform) (f : text_file) (response : http_outcome)
    (draws : nat -> Z) (ratios_history : loc) (w : world)
    (window : list R) (results : list pizzeria) :
  heap w !! ratios_history = Some window ->
  length window <= 72 ->
  (forall w0 : world, (fetch_pizzerias response w0).1 = Ok results) ->
  exists (known : gset string) (ratio : R) (is_anomaly : bool) (score : R)
         (w' : world),
    iteration STL iter_order os f response (Ok tt) draws ratios_history w
    = (Ok (ids_of results ∖ known,
           Text (written_ids os (iter_order (ids_of results))),
           (ratio, is_anomaly, score)), w') /\
    (forall w0 : world, (load_known_pizzerias f w0).1 = Ok known) /\
    compute_ratio
      (simulate_visits draws (Z.of_nat (length results)))
      (Z.of_nat (length results)) = Ok ratio /\
    heap w' !! ratios_history = Some (slice_last 72 (window ++ [ratio])).
Proof using iter_order_enumerates.
  intros Hw Hlen Hfetch.
  destruct (load_known_pizzerias_run f w) as (known & w0 & Hload & Hh0 & _).
  destruct (fetch_pizzerias_run response w0) as (results' & w1 & Hrun & Hh1 & _).
  pose proof (Hfetch w0) as Hres. rewrite Hrun in Hres. simpl in Hres.
  injection Hres as ->.
  assert (Hw1 : heap w1 !! ratios_history = Some window) by congruence.
  destruct (cycle_run STL ratios_history (Z.of_nat (length results))
              (simulate_visits draws (Z.of_nat (length results))) w1 window Hw1 Hlen)
    as (ratio & w2 & Hr & _ & Hw2 & _ & _ & Hcycle).
  exists known, ratio. eexists _, _, _. split.
  { unfold iteration, mbind, M_bind. rewrite Hload, Hrun. simpl.
    unfold mret, M_ret. rewrite Hcycle. reflexivity. }
  split.
  { intros w0'. destruct f; simpl in *; by injection Hload as <-. }
  split; [done|].
  rewrite world_of_frame by (rewrite Hw2; eauto). done.
Qed.

(** X10. The ids one iteration fetches are the known ids of the next:
    the second of two consecutive iterations reports as new exactly
    the ids it fetched and the first did not. On a first run, without
    a file, every fetched id is new. *)
Theorem new_ids_across_iterations (os : platform) (f : text_file)
    (response1 response2 : http_outcome) (draws1 draws2 : nat -> Z)
    (ratios_history : loc) (w : world) (window : list R)
    (results1 results2 : list pizzeria) :
  heap w !! ratios_history = Some window ->
  length window <= 72 ->
  (forall w0 : world, (fetch_pizzerias response1 w0).1 = Ok results1) ->
  (forall w0 : world, (fetch_pizzerias response2 w0).1 = Ok results2) ->
  exists (new1 new2 : gset string) (f1 f2 : text_file)
         (out1 out2 : R * bool * R) (w1 w2 : world),
    iteration STL iter_order os f response1 (Ok tt) draws1 ratios_history w
    = (Ok (new1, f1, out1), w1) /\
    iteration STL iter_order os f1 response2 (Ok tt) draws2 ratios_history w1
    = (Ok (new2, f2, out2), w2) /\
    new2 = ids_of results2 ∖ ids_of results1 /\
    (f = Absent -> new1 = ids_of results1).
Proof using iter_order_enumerates.
  intros Hw Hlen Hf1 Hf2.
  destruct (iteration_run os f response1 draws1 ratios_history w window
              results1 Hw Hlen Hf1)
    as (known1 & ratio1 & b1 & s1 & w1 & Hrun1 & Hknown1 & _ & Hw1).
  destruct (iteration_run os (Text (written_ids os (iter_order (ids_of results1))))
              response2 draws2 ratios_history w1 _ results2 Hw1
              (slice_last_length _ _) Hf2)
    as (known2 & ratio2 & b2 & s2 & w2 & Hrun2 & Hknown2 & _ & _).
  eexists _, _, _, _, _, _, w1, w2. split; [exact Hrun1|]. split; [exact Hrun2|].
  split.
  - f_equal. specialize (Hknown2 w). simpl in Hknown2. injection Hknown2 as <-.
    rewrite read_written.
    + apply iter_order_enumerates.
    + by apply (ids_of_no_whitespace results1).
  - intros ->. specialize (Hknown1 w). simpl in Hknown1.
    injection Hknown1 as <-. apply difference_empty_L.
Qed.

(** X11. An iteration whose fetch yields nothing (a failed request, an
    undecodable body, an object without an id, or no establishment)
    reports no new id, leaves the file of known ids empty and appends
    the ratio 0.0 to the window. *)
Theorem empty_fetch_iteration (os : platform) (f : text_file)
    (response : http_outcome) (draws : nat -> Z)
    (ratios_history : loc) (w : world) (window : list R) :
  heap w !! ratios_history = Some window ->
  length window <= 72 ->
  (forall w0 : world, (fetch_pizzerias response w0).1 = Ok []) ->
  exists (is_anomaly : bool) (score : R) (w' : world),
    iteration STL iter_order os f response (Ok tt) draws ratios_history w
    = (Ok (∅, Text EmptyString, (0%R, is_anomaly, score)), w') /\
    heap w' !! ratios_history = Some (slice_last 72 (window ++ [0%R])).
Proof using iter_order_enumerates.
  intros Hw Hlen Hfetch.
  destruct (iteration_run os f response draws ratios_history w window
              [] Hw Hlen Hfetch)
    as (known & ratio & b & s & w' & Hrun & _ & Hr & Hw').
  assert (Hids : ids_of [] = ∅) by done.
  rewrite Hids in Hrun.
  rewrite (list_to_set_empty_inv (iter_order ∅)) in Hrun
    by apply iter_order_enumerates.
  simpl in Hr. unfold compute_ratio in Hr. simpl in Hr. injection Hr as <-.
  exists b, s, w'. split; [|done]. by rewrite Hrun, empty_difference_L.
Qed.

End IterationRuns.

(** ** Shutdown and pace *)

Lemma steps_to_exit_bound (s : mstate) : steps_to_exit s <= 13.
Proof.
  unfold steps_to_exit. destruct (at_pc s) as [|st|i|i|]; try lia.
  destruct st; simpl; lia.
Qed.

Lemma tick_steps_to_exit (s : mstate) :
  should_exit s = true ->
  steps_to_exit (do_action s Tick) = steps_to_exit s - 1.
Proof.
  destruct s as [p flag]. simpl. intros ->.
  unfold do_action, prog_step, steps_to_exit. simpl.
  destruct p as [|st|i|i|]; simpl; try done.
  - pose proof (next_stmt_remaining st) as Hnext.
    destruct (next_stmt st); simpl; lia.
  - by case_bool_decide.
Qed.

Lemma exec_reaches_exit (sched : list action) :
  forall s : mstate,
    should_exit s = true ->
    steps_to_exit s <= ticks sched ->
    at_pc (exec sched s) = Exited.
Proof.
  induction sched as [|[|] rest IH]; intros s Hflag Hsteps.
  - simpl in *. unfold steps_to_exit in Hsteps.
    destruct (at_pc s) as [|st|i|i|]; try done; try lia.
  - rewrite exec_cons. apply IH.
    + by apply do_action_flag.
    + rewrite tick_steps_to_exit by done. simpl in Hsteps. lia.
  - rewrite exec_cons. apply IH; [done|]. simpl in *.
    by destruct s.
Qed.

(** X12. Shutdown is bounded. Wherever [main] is when a termination
    signal is delivered, it has exited once it has taken 13 more
    steps, whatever else is delivered meanwhile: at most the rest of
    the running cycle, one test of the sleep loop and the [while]
    test. From the sleep loop three steps suffice. *)
Theorem exits_within_13_steps (s : mstate) (sched : list action) :
  (13 <= ticks sched -> at_pc (exec (Signal :: sched) s) = Exited) /\
  (in_cycle s = false -> 3 <= ticks sched ->
   at_pc (exec (Signal :: sched) s) = Exited).
Proof.
  rewrite exec_cons. split.
  - intros Hticks. apply exec_reaches_exit; [done|].
    pose proof (steps_to_exit_bound (do_action s Signal)). lia.
  - intros Hout Hticks. apply exec_reaches_exit; [done|].
    destruct s as [p flag]. unfold steps_to_exit. simpl in *.
    destruct p; try done; lia.
Qed.

Lemma tick_without_flag (s : mstate) :
  should_exit s = false -> at_pc s <> Exited ->
  should_exit (do_action s Tick) = false /\ at_pc (do_action s Tick) <> Exited.
Proof.
  destruct s as [p flag]. simpl. intros -> Hpc.
  unfold do_action, prog_step. simpl.
  destruct p as [|st|i|i|]; simpl; try done.
  - by destruct (next_stmt st).
  - by case_bool_decide.
Qed.

(** X13. Without a termination signal [main] never exits: after any
    number of steps the flag is clear and the program is not at its
    exit. *)
Theorem runs_until_signalled (s : mstate) (n : nat) :
  should_exit s = false ->
  at_pc s <> Exited ->
  should_exit (exec (replicate n Tick) s) = false /\
  at_pc (exec (replicate n Tick) s) <> Exited.
Proof.
  revert s. induction n as [|n IH]; intros s Hflag Hpc; [done|].
  simpl replicate. rewrite exec_cons.
  destruct (tick_without_flag s Hflag Hpc) as [Hflag' Hpc'].
  by apply IH.
Qed.

Lemma sleep_second (i : nat) :
  i < 3600 ->
  exec [Tick; Tick] (MState (ForTest i) false) = MState (ForTest (S i)) false.
Proof.
  intros Hi. rewrite exec_cons.
  assert (Hstep : do_action (MState (ForTest i) false) Tick
                  = MState (Sleeping i) false).
  { unfold do_action, prog_step. cbn [at_pc should_exit].
    by rewrite bool_decide_true. }
  by rewrite Hstep.
Qed.

Lemma exec_app (sched1 sched2 : list action) (s : mstate) :
  exec (sched1 ++ sched2) s = exec sched2 (exec sched1 s).
Proof. unfold exec. apply foldl_app. Qed.

(** X14. Without a signal the sleep loop sleeps second after second,
    3600 of them, and then the next cycle starts. *)
Theorem one_cycle_per_3600_seconds :
  (forall i : nat, i <= 3600 ->
     exec (replicate (2 * i) Tick) (MState (ForTest 0) false)
     = MState (ForTest i) false) /\
  exec [Tick; Tick] (MState (ForTest 3600) false)
  = MState (InCycle LoadKnown) false.
Proof.
  split; [|by vm_compute].
  induction i as [|i IH]; intros Hi; [done|].
  replace (2 * S i) with (2 * i + 2) by lia.
  rewrite replicate_add, exec_app, IH by lia.
  apply sleep_second. lia.
Qed.

(** ** Thresholds and scale *)

(** X15. The score and the effects of a call do not depend on the
    threshold, and a lower threshold flags whatever a higher one
    flags. *)
Theorem threshold_monotone (STL : list R -> nat -> bool -> stl_outcome)
    (ratios : loc) (t1 t2 : R) (w : world) :
  (t1 <= t2)%R ->
  exists (flag1 flag2 : bool) (score : R) (w' : world),
    detect_anomaly STL ratios t1 w = (Ok (flag1, score), w') /\
    detect_anomaly STL ratios t2 w = (Ok (flag2, score), w') /\
    (flag2 = true -> flag1 = true).
Proof.
  intros Hle. rewrite !detect_anomaly_run.
  destruct (path_of STL (deref ratios w)) as [|e|resid|resid latest]; simpl;
    try (by eexists _, _, _, _).
  eexists _, _, _, _. split; [reflexivity|]. split; [reflexivity|].
  intros Hflag%bool_decide_eq_true. apply bool_decide_eq_true. lra.
Qed.





Lemma population_variance_nonneg (xs : list R) :
  (0 <= population_variance xs)%R.
Proof.
  unfold population_variance. destruct xs as [|x xs].
  - simpl. unfold Rdiv. rewrite Rmult_0_l. lra.
  - apply Rmult_le_pos.
    + apply Rsum_nonneg, Forall_map, Forall_forall. intros y _.
      apply (Rle_0_sqr (y - np_mean (x :: xs))).
    + left. apply Rinv_0_lt_compat, lt_0_INR. simpl. lia.
Qed.



(** ** The further properties on sample inputs *)

Lemma sample_elements_ids :
  Forall (fun el => is_Some (el_id el)) sample_elements.
Proof. repeat constructor; by eexists. Defined.

Lemma fetch_pizzerias_last_wins_witness :
  exists results : list pizzeria,
    fetch_pizzerias (JsonObject (Some sample_elements)) (world_with [])
    = (Ok results, world_with []) /\
    length results = size (list_to_set (omap el_id sample_elements) : gset Z).
Proof.
  destruct (fetch_pizzerias_last_wins sample_elements (world_with [])
              sample_elements_ids) as (results & Hrun & _ & Hlen).
  by exists results.
Defined.

Lemma fetch_pizzerias_order_witness :
  exists results : list pizzeria,
    fetch_pizzerias (JsonObject (Some sample_elements)) (world_with [])
    = (Ok results, world_with []) /\
    map pizzeria_id results = [7%Z; 9%Z].
Proof.
  apply (fetch_pizzerias_order sample_elements (world_with [])
           sample_elements_ids).
Defined.

Lemma simulate_visits_bounds_witness :
  (3 * Z.max 0 4 <= simulate_visits (fun _ => 3%Z) 4
   <= 15 * Z.max 0 4)%Z /\
  ((4 <= 0)%Z -> simulate_visits (fun _ => 3%Z) 4 = 0%Z).
Proof.
  apply (simulate_visits_bounds (fun _ => 3%Z) 4%Z). intros k. lia.
Defined.

Lemma simulated_ratio_range_witness :
  exists ratio : R,
    compute_ratio (simulate_visits (fun _ => 15%Z) 4) 4 = Ok ratio /\
    ((0 < 4)%Z -> (3 <= ratio <= 15)%R) /\
    ((4 <= 0)%Z -> ratio = 0%R).
Proof.
  apply (simulated_ratio_range (fun _ => 15%Z) 4%Z). intros k. lia.
Defined.

Lemma warm_up_cycles_witness :
  exists (outs : list (R * bool * R)) (w' : world),
    run_cycles stl_spike 1%positive [(2, 9); (0, 0); (3, 30)]%Z (world_with [])
    = (Ok outs, w') /\
    Forall (fun out => out.1.2 = false /\ out.2 = 0%R) outs /\
    stl_calls w' = [].
Proof.
  destruct (warm_up_cycles stl_spike 1%positive [(2, 9); (0, 0); (3, 30)]%Z
              (world_with []) [])
    as (outs & w' & window' & Hrun & _ & Hall & Hcalls & _).
  - reflexivity.
  - simpl. lia.
  - by exists outs, w'.
Defined.

Lemma cycle_calls_stl_on_window_witness :
  exists (out : R * bool * R) (w' : world) (series : list R),
    cycle stl_spike 1%positive 2 9 (world_with (replicate 23 1%R))
    = (Ok out, w') /\
    stl_calls w' = [series] /\
    24 <= length series <= 72.
Proof.
  destruct (cycle_calls_stl_on_window stl_spike 1%positive 2 9
              (world_with (replicate 23 1%R)) (replicate 23 1%R))
    as (ratio & out & w' & series & _ & Hrun & _ & Hcalls & _ & _ & _ & Hlen).
  - reflexivity.
  - simpl. lia.
  - by exists out, w', series.
Defined.

Lemma known_pizzerias_round_trip_witness :
  exists f' : text_file,
    save_known_pizzerias Windows (Ok tt) ["12"; "7"] Absent (world_with [])
    = (Ok f', world_with []) /\
    load_known_pizzerias f' (world_with [])
    = (Ok (list_to_set ["12"; "7"]), world_with []).
Proof.
  apply (known_pizzerias_round_trip Windows ["12"; "7"] Absent (world_with [])).
  repeat constructor.
Defined.

Lemma new_ids_across_iterations_witness :
  exists (new1 new2 : gset string) (f1 f2 : text_file)
         (out1 out2 : R * bool * R) (w1 w2 : world),
    iteration stl_spike elements Posix Absent
      (JsonObject (Some sample_elements)) (Ok tt) (fun _ => 3%Z) 1%positive
      (world_with [])
    = (Ok (new1, f1, out1), w1) /\
    iteration stl_spike elements Posix f1
      (JsonObject (Some later_elements)) (Ok tt) (fun _ => 3%Z) 1%positive w1
    = (Ok (new2, f2, out2), w2) /\
    new2 = ids_of later_results ∖ ids_of sample_results /\
    (Absent = Absent -> new1 = ids_of sample_results).
Proof.
  apply (new_ids_across_iterations stl_spike elements list_to_set_elements_L
           Posix Absent (JsonObject (Some sample_elements))
           (JsonObject (Some later_elements)) (fun _ => 3%Z) (fun _ => 3%Z)
           1%positive (world_with []) [] sample_results later_results).
  - reflexivity.
  - simpl. lia.
  - intros w0. reflexivity.
  - intros w0. reflexivity.
Defined.

Lemma empty_fetch_iteration_witness :
  exists (is_anomaly : bool) (score : R) (w' : world),
    iteration stl_spike elements Posix (Text "7") (RequestFailed ValueError)
      (Ok tt) (fun _ => 3%Z) 1%positive (world_with [5%R])
    = (Ok (∅, Text EmptyString, (0%R, is_anomaly, score)), w') /\
    heap w' !! 1%positive = Some (slice_last 72 ([5%R] ++ [0%R])).
Proof.
  apply (empty_fetch_iteration stl_spike elements list_to_set_elements_L
           Posix (Text "7") (RequestFailed ValueError) (fun _ => 3%Z)
           1%positive (world_with [5%R]) [5%R]).
  - reflexivity.
  - simpl. lia.
  - intros w0. reflexivity.
Defined.

Lemma runs_until_signalled_witness :
  should_exit (exec (replicate 100 Tick) (MState WhileTest false)) = false /\
  at_pc (exec (replicate 100 Tick) (MState WhileTest false)) <> Exited.
Proof.
  apply (runs_until_signalled (MState WhileTest false) 100).
  - reflexivity.
  - discriminate.
Defined.

Lemma threshold_monotone_witness :
  exists (flag1 flag2 : bool) (score : R) (w' : world),
    detect_anomaly stl_spike 1%positive 3 (world_with (replicate 24 1%R))
    = (Ok (flag1, score), w') /\
    detect_anomaly stl_spike 1%positive 4 (world_with (replicate 24 1%R))
    = (Ok (flag2, score), w') /\
    (flag2 = true -> flag1 = true).
Proof.
  apply (threshold_monotone stl_spike 1%positive 3 4
           (world_with (replicate 24 1%R))).
  lra.
Defined.


(** * The scoring path with NaN *)

Lemma finite_values_map (rs : list R) : finite_values (map Finite rs) = Some rs.
Proof. induction rs as [|r rs IH]; simpl; [done|]. by rewrite IH. Qed.




Lemma np_std_fp_finite (rs : list R) :
  rs <> [] -> np_std_fp (map Finite rs) = Finite (np_std rs).
Proof.
  intros Hne. unfold np_std_fp. rewrite finite_values_map.
  by destruct rs.
Qed.


Section DetectorNaNRuns.

Variable STLf : list pyfloat -> nat -> bool -> result (list pyfloat).


(** On residuals without NaN the two embeddings agree. *)
Lemma detect_anomaly_fp_finite (ratios : list pyfloat) (threshold : pyfloat)
    (resid : list R) (latest : R) :
  24 <= length ratios ->
  STLf ratios 24 true = Ok (map Finite resid) ->
  last resid = Some latest ->
  detect_anomaly_fp STLf ratios threshold
  = if bool_decide (np_std resid = 0%R) then Ok (false, Finite 0)
    else Ok (fp_gtb (Finite (Rabs latest / np_std resid)) threshold,
             Finite (Rabs latest / np_std resid)).
Proof.
  intros Hlen Hfit Hlast. unfold detect_anomaly_fp, score_series_fp.
  rewrite bool_decide_false by lia. rewrite Hfit, fmap_last, Hlast. simpl.
  rewrite np_std_fp_finite by (intros ->; done). simpl.
  by case_bool_decide.
Qed.


End DetectorNaNRuns.






(** On data without NaN the second embedding returns the verdict of
    the first. *)
Lemma detect_anomaly_fp_agrees
    (STL : list R -> nat -> bool -> stl_outcome)
    (STLf : list pyfloat -> nat -> bool -> result (list pyfloat))
    (history : list R) (threshold : R) :
  STLf (map Finite history) 24 true
  = match stl_resid (STL history 24 true) with
    | Ok resid => Ok (map Finite resid)
    | Raise e => Raise e
    end ->
  detect_anomaly_fp STLf (map Finite history) (Finite threshold)
  = Ok ((verdict_of threshold (path_of STL history)).1,
        Finite (verdict_of threshold (path_of STL history)).2).
Proof.
  intros Hfit. unfold path_of. case_bool_decide as Hlen.
  { unfold detect_anomaly_fp. by rewrite length_map, bool_decide_true. }
  apply Nat.nlt_ge in Hlen.
  destruct (stl_resid (STL history 24 true)) as [resid|e] eqn:Hres.
  - destruct (last resid) as [latest|] eqn:Hlast.
    + rewrite (detect_anomaly_fp_finite STLf _ _ resid latest);
        [|by rewrite length_map|done|done].
      by case_bool_decide.
    + unfold detect_anomaly_fp, score_series_fp.
      rewrite length_map, bool_decide_false by lia.
      by rewrite Hfit, fmap_last, Hlast.
  - unfold detect_anomaly_fp, score_series_fp.
    rewrite length_map, bool_decide_false by lia. by rewrite Hfit.
Qed.
